(** * Preview manager of the timeline: chunk cache, undo archive, render runner

    A shallow embedding of [src/timeline/managers/previewmanager.cpp].

    The disk is modelled as far as the manager touches it: the regular files
    of the cache directory ([<cache>/<chunk>.<ext>] and the scratch scene),
    and the sub-directories of [<cache>/undo/], each a flat directory of
    archived chunk files.  Qt calls are modelled on an ideal disk: a call
    fails only for the reasons Qt documents that depend on what exists
    (missing source, existing destination, non-empty directory), never for
    permissions or I/O errors.

    C++ [int] values (chunk start frames, command-stack positions) are
    carried as [Z]; the code does no arithmetic on them that could leave the
    32-bit range for the frame counts and stack depths of a project. *)

From Stdlib Require Import ZArith String Ascii List DecimalString DecimalZ Floats
  OrdersEx.
From stdpp Require Import gmap strings list fin_maps sorting.

#[local] Open Scope string_scope.

(** ** Qt primitives used by the manager *)

Module Qt.

(** [QString::number(int)]: the decimal numeral, with a leading minus sign
    for negative numbers. *)
Definition number (n : Z) : string := NilEmpty.string_of_int (Z.to_int n).

(** [QString operator<] compares code units; on the ASCII names used here
    that is the byte-wise lexicographic order. *)
Definition QString_leb (a b : string) : bool :=
  match String_as_OT.compare a b with
  | Gt => false
  | _ => true
  end.

Definition QString_le (a b : string) : Prop := QString_leb a b = true.

#[export] Instance QString_le_dec : RelDecision QString_le.
Proof. intros a b. unfold QString_le. apply _. Defined.

(** [qSort] on a [QStringList] and on a [QList<int>]: ascending for the
    element type's [operator<]. *)
Definition qSortStrings (l : list string) : list string :=
  merge_sort QString_le l.

Definition qSort (l : list Z) : list Z := merge_sort Z.le l.

(** [QDir::absoluteFilePath]. *)
Definition absoluteFilePath (dirPath fileName : string) : string :=
  dirPath +:+ "/" +:+ fileName.

(** [QString::split(sep)] for a one-character separator, keeping empty
    parts (the default [KeepEmptyParts]): the result is never empty. *)
Fixpoint splitAux (sep : ascii) (s cur : string) : list string :=
  match s with
  | EmptyString => [String.rev cur]
  | String c s' =>
      if Ascii.eqb c sep then String.rev cur :: splitAux sep s' EmptyString
      else splitAux sep s' (String c cur)
  end.

Definition split (sep : ascii) (s : string) : list string :=
  splitAux sep s EmptyString.

(** [QString::isEmpty]. *)
Definition isEmpty (s : string) : bool :=
  match s with EmptyString => true | _ => false end.

(** [QList::first] and [QList::last] assert that the list is not empty;
    on an empty list the access is undefined, modelled as [None]. *)
Definition first {A} (l : list A) : option A := head l.
Definition last {A} (l : list A) : option A := List.last (Some <$> l) None.

End Qt.

(** ** The disk under the cache directory *)

(** The bytes of a file. *)
Definition content := string.

Record CacheDir := mkCacheDir {
  files : gmap string content;                 (* <cache>/<name> *)
  undo  : gmap string (gmap string content)    (* <cache>/undo/<dir>/<name> *)
}.

(** The cache file of a chunk: [QString("%1.%2").arg(i).arg(m_extension)]. *)
Definition chunkFileName (i : Z) (ext : string) : string :=
  Qt.number i +:+ "." +:+ ext.

(** [m_cacheDir.rename(name, "undo/<dir>/<name>")]: succeeds when the source
    exists, the target directory exists and has no entry of that name. *)
Definition renameToUndo (name dir : string) (d : CacheDir) : bool * CacheDir :=
  match files d !! name, undo d !! dir with
  | Some c, Some arch =>
      match arch !! name with
      | None => (true, mkCacheDir (delete name (files d))
                                  (<[dir := <[name := c]> arch]> (undo d)))
      | Some _ => (false, d)
      end
  | _, _ => (false, d)
  end.

(** [m_undoDir.exists(dir)]. *)
Definition undoExists (dir : string) (d : CacheDir) : bool :=
  bool_decide (is_Some (undo d !! dir)).

(** [m_undoDir.mkdir(dir)]: creates an empty directory unless the name is
    taken. *)
Definition undoMkdir (dir : string) (d : CacheDir) : CacheDir :=
  match undo d !! dir with
  | Some _ => d
  | None => mkCacheDir (files d) (<[dir := ∅]> (undo d))
  end.

(** [m_undoDir.rmdir(dir)]: removes the directory only when it is empty. *)
Definition undoRmdir (dir : string) (d : CacheDir) : CacheDir :=
  match undo d !! dir with
  | Some arch =>
      if bool_decide (arch = ∅) then mkCacheDir (files d) (delete dir (undo d))
      else d
  | None => d
  end.

(** [m_cacheDir.remove(name)] and [QFile::remove] of a cache file. *)
Definition removeFile (name : string) (d : CacheDir) : CacheDir :=
  mkCacheDir (delete name (files d)) (undo d).

(** [m_cacheDir.exists(name)]. *)
Definition fileExists (name : string) (d : CacheDir) : bool :=
  bool_decide (is_Some (files d !! name)).

(** [QFile::copy(undo/<dir>/<name>, <cache>/<name>)]: fails when the source
    is missing or the target already exists. *)
Definition copyFromUndo (dir name : string) (d : CacheDir) : bool * CacheDir :=
  match undo d !! dir ≫= (.!! name), files d !! name with
  | Some c, None => (true, mkCacheDir (<[name := c]> (files d)) (undo d))
  | _, _ => (false, d)
  end.

(** [m_undoDir.entryList(QDir::Dirs | QDir::NoDotAndDotDot)]. *)
Definition undoEntryList (d : CacheDir) : list string :=
  elements (dom (undo d)).

(** [QDir tmp = m_undoDir; if (tmp.cd(dir)) tmp.removeRecursively();] *)
Definition undoRemoveRecursively (dir : string) (d : CacheDir) : CacheDir :=
  if undoExists dir d then mkCacheDir (files d) (delete dir (undo d)) else d.

(** ** Archive pruning: [PreviewManager::doCleanupOldPreviews] *)

(** The [while (dirs.count() > 5)] loop, taking the first name each round. *)
Fixpoint cleanupLoop (dirs : list string) (d : CacheDir) : CacheDir :=
  match dirs with
  | [] => d
  | dir :: rest =>
      if (5 <? length dirs)%nat
      then cleanupLoop rest (undoRemoveRecursively dir d)
      else d
  end.

Definition doCleanupOldPreviews (d : CacheDir) : CacheDir :=
  let dirs := Qt.qSortStrings (undoEntryList d) in
  cleanupLoop dirs d.


(** ** Manager state and the signals it emits *)

Inductive Signal :=
  | abortPreview
  | cleanupOldPreviews
  | reloadChunks (cacheDir : string) (chunks : list Z) (ext : string)
  | previewRender (i : Z) (path : string) (progress : Z).

(** The fields of [PreviewManager].  A [QDir] field is the path it holds, the
    timer and the future are the flags the code asks them for. *)
Record PreviewManager := mkManager {
  m_initialized   : bool;
  m_abortPreview  : bool;
  m_extension     : string;
  m_consumerParams : list string;
  m_cacheDir      : string;
  m_undoDir       : string;
  m_previewTimer  : bool;       (* m_previewTimer.isActive() *)
  m_previewThread : bool        (* m_previewThread.isRunning() *)
}.

(** What the manager's member functions read and change: its own fields, the
    disk under the cache directory, the document's modified flag, and the
    signals emitted and renderer processes started so far (oldest first). *)
Record World := mkWorld {
  mgr      : PreviewManager;
  disk     : CacheDir;
  modified : bool;
  emitted  : list Signal;
  launched : list (string * list string)
}.

Definition setDisk (d : CacheDir) (w : World) : World :=
  mkWorld (mgr w) d (modified w) (emitted w) (launched w).

Definition setMgr (m : PreviewManager) (w : World) : World :=
  mkWorld m (disk w) (modified w) (emitted w) (launched w).

Definition setModified (b : bool) (w : World) : World :=
  mkWorld (mgr w) (disk w) b (emitted w) (launched w).

Definition emit (s : Signal) (w : World) : World :=
  mkWorld (mgr w) (disk w) (modified w) (emitted w ++ [s]) (launched w).

Definition setAbortPreview (b : bool) (m : PreviewManager) : PreviewManager :=
  mkManager (m_initialized m) b (m_extension m) (m_consumerParams m)
            (m_cacheDir m) (m_undoDir m) (m_previewTimer m) (m_previewThread m).

Definition setTimer (b : bool) (m : PreviewManager) : PreviewManager :=
  mkManager (m_initialized m) (m_abortPreview m) (m_extension m)
            (m_consumerParams m) (m_cacheDir m) (m_undoDir m) b
            (m_previewThread m).

Definition setThread (b : bool) (m : PreviewManager) : PreviewManager :=
  mkManager (m_initialized m) (m_abortPreview m) (m_extension m)
            (m_consumerParams m) (m_cacheDir m) (m_undoDir m)
            (m_previewTimer m) b.

(** [PreviewManager::abortRendering].  [waitForFinished] returns once the
    runner has left [doPreviewRender], whose last statement clears
    [m_abortPreview]; what the runner does to the disk on its way out is the
    subject of the runner section below. *)
Definition abortRendering (w : World) : World :=
  if negb (m_previewThread (mgr w)) then w
  else
    let w := setMgr (setAbortPreview true (mgr w)) w in
    let w := emit abortPreview w in
    setMgr (setThread false (setAbortPreview false (mgr w))) w.

(** ** The invalidation protocol: [PreviewManager::invalidatePreviews] *)

(** [foreach(int i, chunks)] moving each chunk file into [undo/<dir>/]; the
    flag is [foundPreviews]. *)
Fixpoint archiveLoop (ext dir : string) (chunks : list Z) (foundPreviews : bool)
    (d : CacheDir) : bool * CacheDir :=
  match chunks with
  | [] => (foundPreviews, d)
  | i :: rest =>
      let current := chunkFileName i ext in
      let '(ok, d') := renameToUndo current dir d in
      archiveLoop ext dir rest (if ok then true else foundPreviews) d'
  end.

(** [foreach(int i, chunks)] of the restore branch; [dir] is the directory
    [tmpDir] points to and [moveFile] whether the [cd] into it succeeded. *)
Fixpoint restoreLoop (ext dir : string) (lastUndo moveFile : bool)
    (chunks : list Z) (foundChunks : list Z) (d : CacheDir)
    : list Z * CacheDir :=
  match chunks with
  | [] => (foundChunks, d)
  | i :: rest =>
      let cacheFileName := chunkFileName i ext in
      let d1 := if negb lastUndo then removeFile cacheFileName d else d in
      if moveFile then
        let '(ok, d2) := copyFromUndo dir cacheFileName d1 in
        restoreLoop ext dir lastUndo moveFile rest
          (if ok then foundChunks ++ [i] else foundChunks) d2
      else restoreLoop ext dir lastUndo moveFile rest foundChunks d1
  end.

(** Archiving the chunk files under stack position [ix]: the directory is
    made, the live files are moved into it, and the directory is removed again
    when no file was moved.  The flag is [foundPreviews]. *)
Definition archiveChunks (ext : string) (ix : Z) (chunks : list Z)
    (d : CacheDir) : bool * CacheDir :=
  let d := undoMkdir (Qt.number ix) d in
  let '(foundPreviews, d) := archiveLoop ext (Qt.number ix) chunks false d in
  if negb foundPreviews
  then
    (* No preview files found, remove undo folder *)
    (false, undoRmdir (Qt.number ix) d)
  else (true, d).

(** Restoring the chunk files archived at [stackIx]: [tmpDir.cd], the loop,
    and [qSort(foundChunks)]. *)
Definition restoreChunks (ext : string) (stackIx : Z) (lastUndo : bool)
    (chunks : list Z) (d : CacheDir) : list Z * CacheDir :=
  let moveFile := undoExists (Qt.number stackIx) d in
  let '(foundChunks, d) :=
    restoreLoop ext (Qt.number stackIx) lastUndo moveFile chunks [] d in
  (Qt.qSort foundChunks, d).

(** [emit cleanupOldPreviews()]: the signal is connected to
    [doCleanupOldPreviews] of the same object by [initialize], so the slot
    runs before [emit] returns. *)
Definition emitCleanupOldPreviews (w : World) : World :=
  let w := emit cleanupOldPreviews w in
  setDisk (doCleanupOldPreviews (disk w)) w.

Definition invalidatePreviews (stackIx stackMax : Z) (chunks : list Z)
    (w : World) : World :=
  let ext := m_extension (mgr w) in
  let timer := m_previewTimer (mgr w) in
  let w := if timer then setMgr (setTimer false (mgr w)) w else w in
  let w := abortRendering w in
  let w :=
    if (stackIx =? stackMax)%Z
       && negb (undoExists (Qt.number (stackIx - 1)) (disk w))
    then
      (* We just added a new command in stack, archive existing chunks *)
      let ix := (stackIx - 1)%Z in
      let '(foundPreviews, d) := archiveChunks ext ix chunks (disk w) in
      if negb foundPreviews
      then setDisk d w
      else
        (* new chunks archived, cleanup old ones *)
        emitCleanupOldPreviews (setDisk d w)
    else
      (* Restore existing chunks, delete others *)
      (* Check if we just undo the last stack action, then backup,
         otherwise delete *)
      let '(lastUndo, d) :=
        if (stackIx =? stackMax - 1)%Z
           && negb (undoExists (Qt.number stackMax) (disk w))
        then (true, (archiveChunks ext stackMax chunks (disk w)).2)
        else (false, disk w) in
      let '(foundChunks, d) := restoreChunks ext stackIx lastUndo chunks d in
      emit (reloadChunks (m_cacheDir (mgr w)) foundChunks ext) (setDisk d w)
  in
  let w := setModified true w in
  if timer then setMgr (setTimer true (mgr w)) w else w.

(** ** The render runner: [PreviewManager::doPreviewRender] *)

(** [QProcess::exitStatus]. *)
Inductive ExitStatus := NormalExit | CrashExit.

(** What one renderer process does, as the runner observes it:
    whether [waitForStarted] succeeds, the exit status after
    [waitForFinished(-1)], the bytes the process left at its output path
    (complete on success, partial when it was killed or crashed), and whether
    [abortRendering] set [m_abortPreview] while the runner was waiting. *)
Record ProcessRun := mkRun {
  started        : bool;
  exitStatus     : ExitStatus;
  leftFile       : option content;
  abortRequested : bool
}.

(** C++ [double] arithmetic of the progress formula, on binary64 floats. *)
Module Double.

(** [(double) n] for a non-negative [int]. *)
Definition ofInt (n : Z) : float := PrimFloat.of_uint63 (Uint63.of_Z n).

(** Conversion of a [double] to [int]: truncation toward zero. *)
Definition toInt (f : float) : Z :=
  match Prim2SF f with
  | S754_finite s m e =>
      let v := match e with
               | Z0 => Zpos m
               | Zpos p => Zpos m * 2 ^ Zpos p
               | Zneg p => Zpos m / 2 ^ Zpos p
               end%Z in
      if s then (- v)%Z else v
  | _ => 0%Z
  end.

End Double.

(** [progress = (double) (ct) / (ct + chunks.count()) * 1000]. *)
Definition progressOf (ct count : nat) : Z :=
  Double.toInt
    (PrimFloat.mul
       (PrimFloat.div (Double.ofInt (Z.of_nat ct))
                      (Double.ofInt (Z.of_nat (ct + count))))
       (Double.ofInt 1000)).

Section Runner.

(** [KdenliveSettings::timelinechunks()], [KdenliveSettings::rendererpath()]
    and the behaviour of the renderer process started in round [ct] for
    chunk [i]. *)
Variable chunkSize : Z.
Variable rendererpath : string.
Variable proc : nat -> Z -> ProcessRun.

(** The local variables of the [while] loop next to the world. *)
Record LoopState := mkLoop {
  ct     : nat;
  chunks : list Z;
  world  : World
}.

(** The arguments of the renderer for chunk [i]. *)
Definition processArgs (scene : string) (i : Z) (m : PreviewManager)
    : list string :=
  [scene; "in=" +:+ Qt.number i; "out=" +:+ Qt.number (i + chunkSize - 1);
   "-consumer";
   "avformat:" +:+ Qt.absoluteFilePath (m_cacheDir m)
                     (chunkFileName i (m_extension m))]
  ++ m_consumerParams m.

(** The process writes its output file while it runs. *)
Definition processWrites (name : string) (out : option content)
    (d : CacheDir) : CacheDir :=
  match out with
  | Some c => mkCacheDir (<[name := c]> (files d)) (undo d)
  | None => d
  end.

(** One round of the loop for the chunk [i] just taken off the queue, [rest]
    being the queue left and [ct] already incremented.  The flag tells
    whether the loop goes on ([true]) or is left by [break]. *)
Definition iteration (scene : string) (i : Z) (rest : list Z) (ct : nat)
    (w : World) : bool * World :=
  let fileName := chunkFileName i (m_extension (mgr w)) in
  let progress :=
    match rest with
    | [] => 1000%Z
    | _ => progressOf ct (length rest)
    end in
  let path := Qt.absoluteFilePath (m_cacheDir (mgr w)) fileName in
  if fileExists fileName (disk w) then
    (* This chunk already exists *)
    (true, emit (previewRender i path progress) w)
  else
    let args := processArgs scene i (mgr w) in
    let run := proc ct i in
    let w := mkWorld (mgr w) (disk w) (modified w) (emitted w)
                     (launched w ++ [(rendererpath, args)]) in
    if started run then
      let w := setDisk (processWrites fileName (leftFile run) (disk w)) w in
      let w := setMgr (setAbortPreview
                         (m_abortPreview (mgr w) || abortRequested run)
                         (mgr w)) w in
      match exitStatus run with
      | CrashExit =>
          (* Something went wrong *)
          let w := if m_abortPreview (mgr w)
                   then emit (previewRender 0 "" 1000) w
                   else emit (previewRender i "" (-1)) w in
          (false, setDisk (removeFile fileName (disk w)) w)
      | NormalExit => (true, emit (previewRender i path progress) w)
      end
    else (true, w).

(** [while (!chunks.isEmpty()) { int i = chunks.takeFirst(); ct++; ... }] *)
Fixpoint renderLoop (scene : string) (ct : nat) (chunks : list Z) (w : World)
    : LoopState :=
  match chunks with
  | [] => mkLoop ct [] w
  | i :: rest =>
      let ct := S ct in
      let '(continue, w') := iteration scene i rest ct w in
      if continue then renderLoop scene ct rest w' else mkLoop ct rest w'
  end.

(** The loop seen one round at a time: [round] is a pass through the body
    that goes on to the next round ([None] when the queue is empty or the
    body leaves by [break]), [rounds k] the state after [k] such passes. *)
Definition round (scene : string) (s : LoopState) : option LoopState :=
  match chunks s with
  | [] => None
  | i :: rest =>
      let '(continue, w') := iteration scene i rest (S (ct s)) (world s) in
      if continue then Some (mkLoop (S (ct s)) rest w') else None
  end.

Fixpoint rounds (scene : string) (k : nat) (s : LoopState)
    : option LoopState :=
  match k with
  | O => Some s
  | S k' => round scene s ≫= rounds scene k'
  end.

(** The state in which [doPreviewRender] enters the loop: the progress bar
    initialised, the queue sorted, [ct] at 0. *)
Definition loopEntry (queue : list Z) (w : World) : LoopState :=
  mkLoop 0 (Qt.qSort queue) (emit (previewRender 0 "" 0) w).


(** [scene] is a file of the cache directory (the caller passes
    [m_cacheDir.absoluteFilePath("preview.mlt")]), named here by its file
    name; the path given to the renderer is the absolute one. *)
Definition doPreviewRender (scene : string) (chunks : list Z) (w : World)
    : World :=
  (* initialize progress bar *)
  let w := emit (previewRender 0 "" 0) w in
  let st := renderLoop (Qt.absoluteFilePath (m_cacheDir (mgr w)) scene)
                       0 (Qt.qSort chunks) w in
  let w := world st in
  let w := setDisk (removeFile scene (disk w)) w in
  setMgr (setAbortPreview false (mgr w)) w.

End Runner.

(** ** Dirty-chunk notification: [PreviewManager::slotProcessDirtyChunks] *)

(** [chunks] is what [m_ruler->getDirtyChunks()] returns, [stackIx] and
    [stackMax] what the document's command stack reports, [autopreview] the
    setting [KdenliveSettings::autopreview()].  The result carries the
    arguments of [m_ruler->updatePreviewDisplay]; [None] stands for the
    undefined access of [first()] or [last()] on an empty list. *)
Definition slotProcessDirtyChunks (chunks : list Z) (stackIx stackMax : Z)
    (autopreview : bool) (w : World) : option (World * (Z * Z)) :=
  let w := invalidatePreviews stackIx stackMax chunks w in
  match Qt.first chunks, Qt.last chunks with
  | Some a, Some b =>
      let w := if autopreview then setMgr (setTimer true (mgr w)) w else w in
      Some (w, (a, b))
  | _, _ => None
  end.

(** ** Set-up and tear-down: [initialize], [loadParams], [~PreviewManager] *)

(** The document as the manager uses it: its string properties. *)
Record KdenliveDoc := mkDoc {
  properties : gmap string string
}.

(** [KdenliveDoc::getDocumentProperty]: the empty string when unset. *)
Definition getDocumentProperty (doc : KdenliveDoc) (name : string) : string :=
  default "" (properties doc !! name).

Definition setDocumentProperty (name value : string) (doc : KdenliveDoc)
    : KdenliveDoc :=
  mkDoc (<[name := value]> (properties doc)).

Definition setInitialized (b : bool) (m : PreviewManager) : PreviewManager :=
  mkManager b (m_abortPreview m) (m_extension m) (m_consumerParams m)
            (m_cacheDir m) (m_undoDir m) (m_previewTimer m) (m_previewThread m).

Definition setExtension (e : string) (m : PreviewManager) : PreviewManager :=
  mkManager (m_initialized m) (m_abortPreview m) e (m_consumerParams m)
            (m_cacheDir m) (m_undoDir m) (m_previewTimer m) (m_previewThread m).

Definition setConsumerParams (l : list string) (m : PreviewManager)
    : PreviewManager :=
  mkManager (m_initialized m) (m_abortPreview m) (m_extension m) l
            (m_cacheDir m) (m_undoDir m) (m_previewTimer m) (m_previewThread m).

Definition setCacheDir (p : string) (m : PreviewManager) : PreviewManager :=
  mkManager (m_initialized m) (m_abortPreview m) (m_extension m)
            (m_consumerParams m) p (m_undoDir m) (m_previewTimer m)
            (m_previewThread m).

Definition setUndoDir (p : string) (m : PreviewManager) : PreviewManager :=
  mkManager (m_initialized m) (m_abortPreview m) (m_extension m)
            (m_consumerParams m) (m_cacheDir m) p (m_previewTimer m)
            (m_previewThread m).

(** The constructor: [m_initialized(false)], [m_abortPreview(false)], the
    other members default-constructed (a default [QDir] holds no path of its
    own and stands for the process's current directory). *)
Definition newPreviewManager : PreviewManager :=
  mkManager false false "" [] "" "" false false.

(** What the destructor does to the outside. *)
Inductive Teardown :=
  | renderAborted
  | removedRecursively (dirPath : string).

Section Lifecycle.

(** The parts of Qt and of the document that [initialize] calls and that
    live outside the cache tree modelled above:
    [QString::toLong] (0 when the text is no number), [QFile::exists],
    [QStandardPaths::writableLocation(CacheLocation)],
    [dir.mkdir(name)] followed by [dir.cd(name)] (whether the [cd]
    succeeds), [QDir::dirName], [dir.exists("undo") || dir.mkdir("undo")],
    [KdenliveDoc::selectPreviewProfile], and for the destructor
    [dir.entryList(QDir::NoDotAndDotDot).count()]. *)
Variable toLong : string -> Z.
Variable QFile_exists : string -> bool.
Variable cacheLocation : string.
Variable mkdirCd : string -> string -> bool.
Variable dirName : string -> string.
Variable haveUndo : string -> bool.
Variable selectPreviewProfile : KdenliveDoc -> KdenliveDoc.
Variable entryCount : string -> nat.

Definition loadParams (doc : KdenliveDoc) (m : PreviewManager)
    : bool * PreviewManager * KdenliveDoc :=
  let m := setExtension (getDocumentProperty doc "previewextension") m in
  let m := setConsumerParams
             (Qt.split " " (getDocumentProperty doc "previewparameters")) m in
  let '(m, doc) :=
    if bool_decide (m_consumerParams m = []) || Qt.isEmpty (m_extension m)
    then
      let doc := selectPreviewProfile doc in
      let m := setConsumerParams
                 (Qt.split " " (getDocumentProperty doc "previewparameters"))
                 m in
      (setExtension (getDocumentProperty doc "previewextension") m, doc)
    else (m, doc) in
  if bool_decide (m_consumerParams m = []) || Qt.isEmpty (m_extension m)
  then (false, m, doc)
  else (true, setConsumerParams (m_consumerParams m ++ ["an=1"]) m, doc).

Definition initialize (doc : KdenliveDoc) (m : PreviewManager)
    : bool * PreviewManager * KdenliveDoc :=
  let documentId := getDocumentProperty doc "documentid" in
  let m := setInitialized true m in
  if Qt.isEmpty documentId || (toLong documentId =? 0)%Z then
    (* Something is wrong, documentId should be a number, abort *)
    (false, m, doc)
  else
    let cacheDir := getDocumentProperty doc "cachedir" in
    let '(entered, m) :=
      if negb (Qt.isEmpty cacheDir) && QFile_exists cacheDir
      then (true, setCacheDir cacheDir m)
      else
        let m := setCacheDir cacheLocation m in
        if mkdirCd cacheLocation documentId
        then (true, setCacheDir (Qt.absoluteFilePath cacheLocation documentId) m)
        else (false, m) in
    if negb entered then (false, m, doc)
    else if negb (String.eqb (dirName (m_cacheDir m)) documentId)
            || negb (haveUndo (m_cacheDir m))
    then (false, m, doc)
    else
      let '(ok, m, doc) := loadParams doc m in
      if negb ok then (false, m, doc)
      else
        let doc := setDocumentProperty "cachedir" (m_cacheDir m) doc in
        let m := setUndoDir (Qt.absoluteFilePath (m_cacheDir m) "undo") m in
        let m := setInitialized true m in
        (true, m, doc).

(** [PreviewManager::~PreviewManager]: the effects on the outside, in
    order.  [abortRendering] does something only while a render runs. *)
Definition destructor (m : PreviewManager) : list Teardown :=
  if m_initialized m then
    (if m_previewThread m then [renderAborted] else [])
    ++ [removedRecursively (m_undoDir m)]
    ++ (if (entryCount (m_cacheDir m) =? 0)%nat
        then [removedRecursively (m_cacheDir m)] else [])
  else [].

End Lifecycle.

(** ** Dropping an abandoned redo branch: [slotRemoveInvalidUndo] *)

Section RemoveInvalidUndo.

(** [QString::toInt] (0 when the text is no number). *)
Variable toInt : string -> Z.

Fixpoint removeInvalidLoop (ix : Z) (dirs : list string) (d : CacheDir)
    : CacheDir :=
  match dirs with
  | [] => d
  | dir :: rest =>
      removeInvalidLoop ix rest
        (if (ix <=? toInt dir)%Z then undoRemoveRecursively dir d else d)
  end.

Definition slotRemoveInvalidUndo (ix : Z) (d : CacheDir) : CacheDir :=
  removeInvalidLoop ix (Qt.qSortStrings (undoEntryList d)) d.

End RemoveInvalidUndo.

(** The chunk a [previewRender] event reports as present in the cache: the
    events of completion carry the path of the chunk's file, the first event
    and those of failure and abort an empty path. *)
Definition renderedChunk (e : Signal) : option Z :=
  match e with
  | previewRender i path _ => if Qt.isEmpty path then None else Some i
  | _ => None
  end.

(** The fields of the manager a round never writes. *)
Definition sameSettings (m1 m2 : PreviewManager) : Prop :=
  m_initialized m1 = m_initialized m2
  ∧ m_extension m1 = m_extension m2
  ∧ m_consumerParams m1 = m_consumerParams m2
  ∧ m_cacheDir m1 = m_cacheDir m2
  ∧ m_undoDir m1 = m_undoDir m2
  ∧ m_previewTimer m1 = m_previewTimer m2
  ∧ m_previewThread m1 = m_previewThread m2.


(** A renderer run that starts, exits normally and leaves its output. *)
Definition goodRun (r : ProcessRun) : Prop :=
  started r = true ∧ exitStatus r = NormalExit ∧ is_Some (leftFile r).


(** ** Marking the zone for preview: [PreviewManager::addPreviewRange] *)

(** C++ integer division truncates toward zero; dividing by zero is
    undefined ([None]).  The [int]s of this function are taken without
    bound: the products [i * chunkSize] lie between the zone's two
    frames. *)
Definition intDiv (a b : Z) : option Z :=
  if (b =? 0)%Z then None else Some (Z.quot a b).

(** [for (int i = startChunk; i <= endChunk; i++) frames << i * chunkSize]. *)
Definition chunkFrames (startChunk endChunk chunkSize : Z) : list Z :=
  (λ i, i * chunkSize)%Z <$> seqZ startChunk (endChunk - startChunk + 1).

(** The start frames of the chunks from the one of frame [x] to the one of
    frame [y]: [startChunk = p.x() / chunkSize],
    [endChunk = rintl(p.y() / chunkSize)], where [rintl] gets the integer
    quotient and returns it. *)
Definition zoneFrames (x y chunkSize : Z) : option (list Z) :=
  startChunk ← intDiv x chunkSize;
  endChunk ← intDiv y chunkSize;
  Some (chunkFrames startChunk endChunk chunkSize).

(** [foreach(int ix, toProcess) m_cacheDir.remove(...)]. *)
Fixpoint removeChunks (ext : string) (toProcess : list Z) (d : CacheDir)
    : CacheDir :=
  match toProcess with
  | [] => d
  | ix :: rest => removeChunks ext rest (removeFile (chunkFileName ix ext) d)
  end.

Section Ruler.

(** The ruler the manager talks to ([m_ruler]), of which only the calls are
    known: [addChunks(frames, add)] registers or removes chunks and returns
    those that need action, [hasPreviewRange()], [getDirtyChunks()]. *)
Variable Ruler : Type.
Variable addChunks : Ruler → list Z → bool → list Z * Ruler.
Variable hasPreviewRange : Ruler → bool.
Variable getDirtyChunks : Ruler → list Z.

(** [zone] is [m_doc->zone()], [chunkSize] and [autopreview] the settings
    [timelinechunks] and [autopreview]. *)
Definition addPreviewRange (zone : Z * Z) (chunkSize : Z) (autopreview : bool)
    (add : bool) (r : Ruler) (w : World) : option (World * Ruler) :=
  frames ← zoneFrames zone.1 zone.2 chunkSize;
  let '(toProcess, r) := addChunks r frames add in
  if bool_decide (toProcess = []) then Some (w, r)
  else if add then
    (* TODO: optimize, don't abort rendering process, just add required
       frames *)
    Some (if autopreview then setMgr (setTimer true (mgr w)) w else w, r)
  else
    (* Remove processed chunks *)
    Some (setDisk (removeChunks (m_extension (mgr w)) toProcess (disk w)) w, r).

(** ** The debounce timer fires: [PreviewManager::startPreviewRender] *)



End Ruler.


(** * The track view: [TrackView::parseDocument] ([src/trackview.cpp]) *)

Module TrackView.

(** A [playlist] element of the document, by its attributes. *)
Definition QDomElement := gmap string string.

(** [QDomElement::attribute(name, defValue)]. *)
Definition attribute (e : QDomElement) (name defValue : string) : string :=
  default defValue (e !! name).

(** A track of the view: audio or video, built from its element. *)
Record DocumentTrack := mkTrack {
  isAudio : bool;
  xml : QDomElement
}.

(** [QList::insert(i, value)]: prepended when [i <= 0], appended when [i] is
    past the end. *)
Definition QList_insert {A} (i : Z) (v : A) (l : list A) : list A :=
  (take (Z.to_nat i) l ++ v :: drop (Z.to_nat i) l)%list.

(** What [parseDocument] keeps of the view: the duration of the project and
    the list of tracks.  The widgets handed to the layouts are not
    modelled. *)
Record View := mkView {
  m_projectDuration : Z;
  documentTracks : list DocumentTrack
}.

Section Parse.

(** [DocumentTrack::duration()] of the track built from an element; the
    track classes are not part of these sources. *)
Variable duration : DocumentTrack → Z.

(** [slotAddAudioTrack] and [slotAddVideoTrack]: the track is built and
    inserted at [ix]; its duration is returned. *)
Definition slotAddAudioTrack (ix : Z) (e : QDomElement) (v : View)
    : Z * View :=
  let track := mkTrack true e in
  (duration track,
   mkView (m_projectDuration v) (QList_insert ix track (documentTracks v))).

Definition slotAddVideoTrack (ix : Z) (e : QDomElement) (v : View)
    : Z * View :=
  let track := mkTrack false e in
  (duration track,
   mkView (m_projectDuration v) (QList_insert ix track (documentTracks v))).

(** The body of the [for] loop for the playlist [e] at index [i]. *)
Definition parseTrack (i : Z) (e : QDomElement) (v : View) : View :=
  let '(duration, v) :=
    if String.eqb (attribute e "hide" "") "video"
    then
      (* this is an audio track *)
      slotAddAudioTrack i e v
    else slotAddVideoTrack i e v in
  if (m_projectDuration v <? duration)%Z
  then mkView duration (documentTracks v) else v.

Fixpoint parseLoop (i : Z) (tracks : list QDomElement) (v : View) : View :=
  match tracks with
  | [] => v
  | e :: rest => parseLoop (i + 1) rest (parseTrack i e v)
  end.

(** [tracks] is [doc.elementsByTagName("playlist")], in document order. *)
Definition parseDocument (tracks : list QDomElement) (v : View) : View :=
  parseLoop 0 tracks (mkView 300 (documentTracks v)).

End Parse.

(** The track a playlist element becomes. *)
Definition trackOf (e : QDomElement) : DocumentTrack :=
  mkTrack (String.eqb (attribute e "hide" "") "video") e.

End TrackView.

(** ** Concrete disks, managers and renderers used in the examples *)

(** Six snapshots, taken at stack positions 5 to 10, all empty. *)
Definition sixArchives : CacheDir :=
  mkCacheDir ∅ (list_to_map ((λ n, (n, ∅)) <$> ["5"; "6"; "7"; "8"; "9"; "10"])).

(** A ready manager of extension [mp4] whose cache directory is [/c]. *)
Definition readyManager : PreviewManager :=
  mkManager true false "mp4" ["an=1"] "/c" "/c/undo" false false.

Definition worldOf (d : CacheDir) : World := mkWorld readyManager d false [] [].

(** An empty cache with its scratch scene written. *)
Definition sceneOnly : CacheDir := mkCacheDir {[ "preview.mlt" := "scene" ]} ∅.

(** Two rendered chunks, no archive. *)
Definition twoChunks : CacheDir :=
  mkCacheDir {[ "0.mp4" := "frames 0-24"; "25.mp4" := "frames 25-49" ]} ∅.

(** Stale chunks 0 and 25 in the cache, and an archive at stack position 3
    holding chunk 0 only. *)
Definition archiveAtThree : CacheDir :=
  mkCacheDir {[ "0.mp4" := "stale 0"; "25.mp4" := "stale 25" ]}
             {[ "3" := {[ "0.mp4" := "old 0" ]} ]}.

(** Renderers: one that always succeeds, one that crashes on chunk 25, one
    that is killed by an abort on chunk 25. *)
Definition goodRenderer (n : nat) (i : Z) : ProcessRun :=
  mkRun true NormalExit (Some "video") false.

Definition crashAt25 (n : nat) (i : Z) : ProcessRun :=
  if (i =? 25)%Z then mkRun true CrashExit (Some "partial") false
  else mkRun true NormalExit (Some "video") false.


Definition alwaysCrash (n : nat) (i : Z) : ProcessRun :=
  mkRun true CrashExit None false.

(** The world in which the loop, started on the queue [25; 0] over
    [sceneOnly], takes chunk 25 off the queue: chunk 0 has been rendered. *)
Definition afterChunk0 (proc : nat → Z → ProcessRun) : World :=
  match rounds 25 "melt" proc "/c/preview.mlt" 1
               (loopEntry [25; 0]%Z (worldOf sceneOnly)) with
  | Some s => world s
  | None => worldOf sceneOnly
  end.

(** ** Concrete documents, Qt functions and rulers used in the examples *)

(** The value of a decimal numeral, 0 when the text is none: what
    [QString::toLong] and [QString::toInt] give on such texts. *)
Definition decimalValue (s : string) : Z :=
  match NilEmpty.int_of_string s with
  | Some i => Z.of_int i
  | None => 0
  end.

(** The last component of a path, as [QDir::dirName] gives it. *)
Definition lastComponent (path : string) : string :=
  default "" (Qt.last (Qt.split "/" path)).

(** A document saved with an identifier and a preview profile, and no cache
    directory yet. *)
Definition savedDoc : KdenliveDoc :=
  mkDoc {[ "documentid" := "1461234567"; "previewextension" := "mp4";
           "previewparameters" := "vcodec=mjpeg qscale=1" ]}.

(** [initialize] where no file exists yet, every directory can be made and
    entered, and the document keeps its profile. *)
Definition initializeFresh :=
  initialize decimalValue (λ _, false) "/cache" (λ _ _, true) lastComponent
             (λ _, true) id.

(** A ruler for the examples: the list of the chunks marked for preview, all
    of them dirty.  Adding returns the frames not yet marked, removing those
    that were. *)
Definition ListRuler := list Z.

Definition listAddChunks (r : ListRuler) (frames : list Z) (add : bool)
    : list Z * ListRuler :=
  if add
  then let new := filter (λ f, f ∉ r) frames in (new, (r ++ new)%list)
  else (filter (λ f, f ∈ r) frames, filter (λ f, f ∉ frames) r).




(** * Properties *)

(** ** Archive pruning *)

(** The order of [QString] names is a total order. *)
Lemma QString_le_alt (a b : string) :
  Qt.QString_le a b ↔ a = b ∨ String_as_OT.lt a b.
Proof.
  unfold Qt.QString_le, Qt.QString_leb.
  destruct (String_as_OT.compare_spec a b) as [E|L|G].
  - split; [by left|done].
  - split; [by right|done].
  - split; [done|]. intros [->|L].
    + by apply (irreflexivity String_as_OT.lt) in G.
    + exfalso. apply (irreflexivity String_as_OT.lt a). by etransitivity.
Qed.

#[local] Instance QString_le_total : Total Qt.QString_le.
Proof.
  intros a b. rewrite !QString_le_alt.
  destruct (String_as_OT.compare_spec a b); auto.
Qed.

#[local] Instance QString_le_trans : Transitive Qt.QString_le.
Proof.
  intros a b c. rewrite !QString_le_alt.
  intros [->|H1] [->|H2]; auto. right. by etransitivity.
Qed.

#[local] Instance QString_le_antisymm : AntiSymm (=) Qt.QString_le.
Proof.
  intros a b. rewrite !QString_le_alt. intros [->|H1] [E|H2]; auto.
  exfalso. apply (irreflexivity String_as_OT.lt a). by etransitivity.
Qed.

(** Removing an archive directory, existing or not. *)
Lemma undo_undoRemoveRecursively (dir : string) (d : CacheDir) :
  undo (undoRemoveRecursively dir d) = delete dir (undo d)
  ∧ files (undoRemoveRecursively dir d) = files d.
Proof.
  unfold undoRemoveRecursively, undoExists. case_bool_decide as H; [done|].
  split; [|done]. symmetry. apply delete_id. by apply eq_None_not_Some.
Qed.

(** The loop deletes the names in front of the last five of its list. *)
Lemma cleanupLoop_spec (dirs : list string) :
  ∀ d : CacheDir,
  files (cleanupLoop dirs d) = files d
  ∧ ∀ x, undo (cleanupLoop dirs d) !! x
         = if decide (x ∈ take (length dirs - 5) dirs) then None
           else undo d !! x.
Proof.
  induction dirs as [|dir rest IH]; intros d.
  - split; [done|]. intros x. cbn. case_decide as H; [|done].
    by apply elem_of_nil in H.
  - cbn [cleanupLoop]. destruct (5 <? length (dir :: rest))%nat eqn:E.
    + apply Nat.ltb_lt in E. cbn [length] in E.
      destruct (IH (undoRemoveRecursively dir d)) as [H1 H2].
      destruct (undo_undoRemoveRecursively dir d) as [Hu Hf].
      split; [congruence|]. intros x. rewrite H2, Hu.
      replace (length (dir :: rest) - 5)%nat with (S (length rest - 5))
        by (cbn [length]; lia).
      cbn [take]. destruct (decide (x = dir)) as [->|Hne].
      * rewrite lookup_delete_eq. repeat case_decide; try done; set_solver.
      * rewrite lookup_delete_ne by done.
        repeat case_decide; try done; set_solver.
    + apply Nat.ltb_ge in E. split; [done|]. intros x.
      replace (length (dir :: rest) - 5)%nat with 0%nat by lia.
      cbn. case_decide as H; [|done]. by apply elem_of_nil in H.
Qed.

(** What pruning does: the archive directories are sorted by name as text
    and all but the last five of that order are deleted; at most five
    remain, and the cache files are not touched. *)
Lemma doCleanupOldPreviews_keeps_last_five (d : CacheDir) :
  let l := Qt.qSortStrings (undoEntryList d) in
  let d' := doCleanupOldPreviews d in
  files d' = files d
  ∧ (∀ x, undo d' !! x
          = if decide (x ∈ drop (length l - 5) l) then undo d !! x else None)
  ∧ Qt.qSortStrings (undoEntryList d') = drop (length l - 5) l
  ∧ (length (undoEntryList d') ≤ 5)%nat.
Proof.
  intros l d'. subst d'. unfold doCleanupOldPreviews. fold l.
  destruct (cleanupLoop_spec l d) as [Hf Hu].
  assert (Hperm : l ≡ₚ elements (dom (undo d))).
  { subst l. unfold Qt.qSortStrings, undoEntryList.
    apply merge_sort_Permutation. }
  assert (Hnd : NoDup l) by (rewrite Hperm; apply NoDup_elements).
  assert (Hin : ∀ x, x ∈ l ↔ is_Some (undo d !! x)).
  { intros x. by rewrite Hperm, elem_of_elements, elem_of_dom. }
  assert (Hsplit : ∀ x, x ∈ l →
            x ∈ take (length l - 5) l ↔ x ∉ drop (length l - 5) l).
  { intros x Hxl. rewrite <- (take_drop (length l - 5) l) in Hnd.
    apply NoDup_app in Hnd as (_ & Hdisj & _).
    split; [apply Hdisj|]. intros Hx.
    rewrite <- (take_drop (length l - 5) l) in Hxl.
    apply elem_of_app in Hxl as [?|?]; done. }
  assert (Hlook : ∀ x, undo (cleanupLoop l d) !! x
            = if decide (x ∈ drop (length l - 5) l) then undo d !! x else None).
  { intros x. rewrite Hu. destruct (decide (x ∈ l)) as [Hx|Hx].
    - specialize (Hsplit x Hx). repeat case_decide; tauto.
    - assert (undo d !! x = None) as ->.
      { apply eq_None_not_Some. by rewrite <- Hin. }
      repeat case_decide; done. }
  assert (Hset : ∀ x, x ∈ undoEntryList (cleanupLoop l d)
                      ↔ x ∈ drop (length l - 5) l).
  { intros x. unfold undoEntryList.
    rewrite elem_of_elements, elem_of_dom, Hlook.
    case_decide as Hx; [|split; [by intros [? [=]]|done]].
    split; [done|]. intros _. apply Hin.
    rewrite <- (take_drop (length l - 5) l). apply elem_of_app. by right. }
  assert (Hnd' : NoDup (drop (length l - 5) l)).
  { rewrite <- (take_drop (length l - 5) l) in Hnd.
    by apply NoDup_app in Hnd as (_ & _ & ?). }
  assert (Hp' : undoEntryList (cleanupLoop l d) ≡ₚ drop (length l - 5) l).
  { apply NoDup_Permutation; [|done|done].
    unfold undoEntryList. apply NoDup_elements. }
  split_and!; [done|done| |].
  - apply (Sorted_unique Qt.QString_le).
    + apply (Sorted_merge_sort Qt.QString_le).
    + assert (Hs : Sorted Qt.QString_le l)
        by apply (Sorted_merge_sort Qt.QString_le).
      apply Sorted_StronglySorted in Hs; [|apply _].
      rewrite <- (take_drop (length l - 5) l) in Hs.
      apply StronglySorted_app_1_r in Hs.
      by apply StronglySorted_Sorted.
    + unfold Qt.qSortStrings. by rewrite merge_sort_Permutation.
  - rewrite Hp', length_drop. lia.
Qed.

(** C1, evaluated where it fails: with the snapshots 5 to 10 on disk,
    pruning keeps 5, 6, 7, 8 and 9 and deletes snapshot 10, the one with the
    highest index, because the names are sorted as text. *)
Lemma doCleanupOldPreviews_deletes_newest :
  Qt.qSortStrings (undoEntryList sixArchives) = ["10"; "5"; "6"; "7"; "8"; "9"]
  ∧ Qt.qSortStrings (undoEntryList (doCleanupOldPreviews sixArchives))
    = ["5"; "6"; "7"; "8"; "9"]
  ∧ undoExists "10" (doCleanupOldPreviews sixArchives) = false
  ∧ undoExists "5" (doCleanupOldPreviews sixArchives) = true.
Proof. vm_compute. repeat split; reflexivity. Qed.

(** ** Set-up and tear-down *)

Section LifecycleFacts.
Variable toLong : string → Z.
Variable QFile_exists : string → bool.
Variable cacheLocation : string.
Variable mkdirCd : string → string → bool.
Variable dirName : string → string.
Variable haveUndo : string → bool.
Variable selectPreviewProfile : KdenliveDoc → KdenliveDoc.
Variable entryCount : string → nat.

(** [loadParams] does not touch [m_initialized]. *)
Lemma loadParams_initialized (doc : KdenliveDoc) (m : PreviewManager) :
  m_initialized (loadParams selectPreviewProfile doc m).1.2 = m_initialized m.
Proof.
  unfold loadParams. repeat case_match; simplify_eq; done.
Qed.

(** Whatever [initialize] returns, it leaves [m_initialized] set. *)
Lemma initialize_sets_initialized (doc : KdenliveDoc) (m : PreviewManager) :
  m_initialized
    (initialize toLong QFile_exists cacheLocation mkdirCd dirName haveUndo
       selectPreviewProfile doc m).1.2 = true.
Proof.
  unfold initialize.
  destruct (_ || _); [done|].
  destruct (_ && _); cbn [negb].
  - destruct (_ || _); [done|].
    match goal with |- context [loadParams ?f ?d ?m'] =>
      pose proof (loadParams_initialized d m') as H;
      destruct (loadParams f d m') as [[ok m2] doc2] end.
    cbn in H. destruct ok; cbn; [done|]. by rewrite H.
  - destruct (mkdirCd _ _); cbn [negb]; [|done].
    destruct (_ || _); [done|].
    match goal with |- context [loadParams ?f ?d ?m'] =>
      pose proof (loadParams_initialized d m') as H;
      destruct (loadParams f d m') as [[ok m2] doc2] end.
    cbn in H. destruct ok; cbn; [done|]. by rewrite H.
Qed.

(** The destructor of a manager with [m_initialized] set deletes the tree
    of [m_undoDir]. *)
Lemma destructor_initialized (m : PreviewManager) :
  m_initialized m = true →
  removedRecursively (m_undoDir m) ∈ destructor entryCount m.
Proof.
  intros H. unfold destructor. rewrite H. set_solver.
Qed.

End LifecycleFacts.

(** C2, evaluated where it fails: for a document without identifier,
    whatever the environment, [initialize] returns false but leaves
    [m_initialized] set, and the destructor of that manager deletes the
    directory tree its (never assigned) [m_undoDir] stands for. *)
Lemma initialize_failure_still_tears_down
    (toLong : string → Z) (QFile_exists : string → bool)
    (cacheLocation : string) (mkdirCd : string → string → bool)
    (dirName : string → string) (haveUndo : string → bool)
    (selectPreviewProfile : KdenliveDoc → KdenliveDoc)
    (entryCount : string → nat) :
  let doc := mkDoc ∅ in
  let r := initialize toLong QFile_exists cacheLocation mkdirCd dirName
             haveUndo selectPreviewProfile doc newPreviewManager in
  r.1.1 = false
  ∧ m_initialized r.1.2 = true
  ∧ removedRecursively (m_undoDir r.1.2) ∈ destructor entryCount r.1.2.
Proof.
  cbn. repeat split. destruct (entryCount ""); cbn; set_solver.
Qed.

(** ** Dirty-chunk notification *)

Lemma Qt_last_is_Some {A} (l : list A) : is_Some (Qt.last l) ↔ l ≠ [].
Proof.
  unfold Qt.last. induction l as [|a [|b l] IH]; cbn.
  - split; [intros [? [=]] | done].
  - split; [done | eauto].
  - cbn in IH. rewrite IH. split; done.
Qed.

(** C10: [slotProcessDirtyChunks] is defined exactly when the dirty-chunk
    list of the ruler is not empty; on the empty list the reads of
    [first()] and [last()] are undefined. *)
Theorem slotProcessDirtyChunks_defined_iff (chunks : list Z)
    (stackIx stackMax : Z) (autopreview : bool) (w : World) :
  is_Some (slotProcessDirtyChunks chunks stackIx stackMax autopreview w)
  ↔ chunks ≠ [].
Proof.
  unfold slotProcessDirtyChunks.
  destruct chunks as [|a l].
  - cbn. split; [intros [? [=]] | done].
  - assert (Hl : is_Some (Qt.last (a :: l))) by (by apply Qt_last_is_Some).
    destruct Hl as [b ->]. cbn. split; [done | eauto].
Qed.

(** ** File names *)

(** Distinct chunks have distinct cache files. *)
Lemma Qt_number_inj (a b : Z) : Qt.number a = Qt.number b → a = b.
Proof.
  unfold Qt.number. intros H. apply DecimalZ.to_int_inj.
  assert (E : NilEmpty.int_of_string (NilEmpty.string_of_int (Z.to_int a))
              = NilEmpty.int_of_string (NilEmpty.string_of_int (Z.to_int b)))
    by (by rewrite H).
  rewrite !NilEmpty.isi in E. by injection E.
Qed.

Lemma string_length_app (s t : string) :
  String.length (s +:+ t) = (String.length s + String.length t)%nat.
Proof. induction s as [|a s IH]; simpl; [done|]. by rewrite IH. Qed.

Lemma append_inj_l (t : string) : ∀ s1 s2 : string, s1 +:+ t = s2 +:+ t → s1 = s2.
Proof.
  assert (Hlen : ∀ (a : ascii) (s : string), t ≠ String a (s +:+ t)).
  { intros a s E. apply (f_equal String.length) in E. simpl in E.
    rewrite string_length_app in E. lia. }
  induction s1 as [|a s1 IH]; intros [|b s2] E; simpl in E.
  - done.
  - by apply Hlen in E.
  - symmetry in E. by apply Hlen in E.
  - injection E as -> E. f_equal. by apply IH.
Qed.

Lemma chunkFileName_inj (ext : string) (i j : Z) :
  chunkFileName i ext = chunkFileName j ext → i = j.
Proof.
  unfold chunkFileName. intros E. apply Qt_number_inj.
  apply (append_inj_l ("." +:+ ext)).
  exact E.
Qed.


(** ** The archive and restore loops *)

Section ArchiveFacts.
Variable ext : string.
Let nameOf (i : Z) := chunkFileName i ext.

(** What a run of the archive loop leaves on disk: a chunk file is moved
    when it exists and the directory has no entry of its name. *)
Lemma archiveLoop_spec (dir : string) (chunks : list Z) :
  ∀ (found : bool) (d : CacheDir) (arch : gmap string content),
  undo d !! dir = Some arch →
  let r := archiveLoop ext dir chunks found d in
  let names := nameOf <$> chunks in
  (∀ n, files r.2 !! n
        = if decide (n ∈ names ∧ arch !! n = None) then None else files d !! n)
  ∧ (∃ arch', undo r.2 !! dir = Some arch'
       ∧ ∀ n, arch' !! n
              = if decide (n ∈ names ∧ arch !! n = None) then files d !! n
                else arch !! n)
  ∧ (∀ dir', dir' ≠ dir → undo r.2 !! dir' = undo d !! dir')
  ∧ (r.1 = true ↔ found = true
                  ∨ ∃ n, n ∈ names ∧ is_Some (files d !! n) ∧ arch !! n = None).
Proof.
  induction chunks as [|i rest IH]; intros found d arch Hd; cbn zeta.
  - cbn. split_and!.
    + intros n. case_decide as H; [|done]. destruct H as [H _].
      by apply elem_of_nil in H.
    + exists arch. split; [done|]. intros n. case_decide as H; [|done].
      destruct H as [H _]. by apply elem_of_nil in H.
    + done.
    + split; [tauto|]. intros [?|(n & H & _)]; [done|].
      by apply elem_of_nil in H.
  - cbn [archiveLoop fmap list_fmap]. fold (nameOf i).
    unfold renameToUndo. rewrite Hd.
    destruct (files d !! nameOf i) as [c|] eqn:Hf;
      [destruct (arch !! nameOf i) as [c'|] eqn:Ha|].
    + destruct (IH found d arch Hd) as (H1 & (arch' & H2 & H2') & H3 & H4).
      split_and!.
      * intros n. rewrite H1. repeat case_decide; try done; set_solver.
      * exists arch'. split; [done|]. intros n. rewrite H2'.
        repeat case_decide; try done; set_solver.
      * done.
      * rewrite H4. set_solver.
    + set (d1 := mkCacheDir _ _).
      assert (Hd1 : undo d1 !! dir = Some (<[nameOf i:=c]> arch))
        by (cbn; by rewrite lookup_insert_eq).
      destruct (IH true d1 _ Hd1) as (H1 & (arch' & H2 & H2') & H3 & H4).
      split_and!.
      * intros n. rewrite H1. cbn.
        destruct (decide (n = nameOf i)) as [->|Hne].
        -- rewrite lookup_insert_eq, lookup_delete_eq.
           repeat case_decide; try done; set_solver.
        -- rewrite lookup_insert_ne, lookup_delete_ne by done.
           repeat case_decide; try done; set_solver.
      * exists arch'. split; [done|]. intros n. rewrite H2'. cbn.
        destruct (decide (n = nameOf i)) as [->|Hne].
        -- rewrite lookup_insert_eq, lookup_delete_eq.
           repeat case_decide; try done; set_solver.
        -- rewrite lookup_insert_ne, lookup_delete_ne by done.
           repeat case_decide; try done; set_solver.
      * intros dir' Hne. rewrite H3 by done. cbn. by rewrite lookup_insert_ne.
      * rewrite H4. split; [intros _|by left]. right. exists (nameOf i).
        rewrite Hf. set_solver.
    + destruct (IH found d arch Hd) as (H1 & (arch' & H2 & H2') & H3 & H4).
      split_and!.
      * intros n. rewrite H1.
        destruct (decide (n = nameOf i)) as [->|Hne].
        -- rewrite Hf. repeat case_decide; done.
        -- repeat case_decide; try done; set_solver.
      * exists arch'. split; [done|]. intros n. rewrite H2'.
        destruct (decide (n = nameOf i)) as [->|Hne].
        -- rewrite Hf. destruct (arch !! nameOf i) eqn:Ha;
             repeat case_decide; try done; set_solver.
        -- repeat case_decide; try done; set_solver.
      * done.
      * rewrite H4. split; (intros [?|(n & Hn & Hs & Hno)]; [by left|right]).
        -- exists n. set_solver.
        -- exists n. split_and!; try done.
           apply elem_of_cons in Hn as [->|?]; [|done].
           rewrite Hf in Hs. by destruct Hs.
Qed.

(** Archiving into a directory that does not exist yet: every chunk file of
    the list leaves the cache; the directory holds them, or is gone again
    when there was none. *)
Lemma archiveChunks_fresh (ix : Z) (chunks : list Z) (d : CacheDir) :
  undo d !! Qt.number ix = None →
  let r := archiveChunks ext ix chunks d in
  let names := nameOf <$> chunks in
  (∀ n, files r.2 !! n = if decide (n ∈ names) then None else files d !! n)
  ∧ (r.1 = true ↔ ∃ n, n ∈ names ∧ is_Some (files d !! n))
  ∧ (r.1 = true →
       ∃ arch, undo r.2 !! Qt.number ix = Some arch
         ∧ ∀ n, arch !! n = if decide (n ∈ names) then files d !! n else None)
  ∧ (r.1 = false → undo r.2 = undo d)
  ∧ (∀ dir', dir' ≠ Qt.number ix → undo r.2 !! dir' = undo d !! dir').
Proof.
  intros Hfresh r names. subst r. unfold archiveChunks, undoMkdir.
  rewrite Hfresh.
  set (d0 := mkCacheDir (files d) _).
  assert (Hd0 : undo d0 !! Qt.number ix = Some ∅)
    by (cbn; by rewrite lookup_insert_eq).
  destruct (archiveLoop_spec (Qt.number ix) chunks false d0 ∅ Hd0)
    as (H1 & (arch' & H2 & H2') & H3 & H4).
  fold names in H1, H2', H4.
  destruct (archiveLoop ext (Qt.number ix) chunks false d0) as [found d1].
  cbn [fst snd] in *.
  assert (Hfound : found = true ↔ ∃ n, n ∈ names ∧ is_Some (files d !! n)).
  { rewrite H4. split.
    - intros [?|(n & ? & ? & _)]; [done|eauto].
    - intros (n & ? & ?). right. exists n. by rewrite lookup_empty. }
  assert (Harch : ∀ n, arch' !! n
                       = if decide (n ∈ names) then files d !! n else None).
  { intros n. rewrite H2', lookup_empty. repeat case_decide; naive_solver. }
  assert (Hfiles : ∀ n, files d1 !! n
                        = if decide (n ∈ names) then None else files d !! n).
  { intros n. rewrite H1, lookup_empty. repeat case_decide; naive_solver. }
  assert (Hothers : ∀ dir', dir' ≠ Qt.number ix →
                            undo d1 !! dir' = undo d !! dir').
  { intros dir' Hne. rewrite H3 by done. cbn. by rewrite lookup_insert_ne. }
  destruct found; cbn [negb fst snd].
  - split_and!; try done. eauto.
  - assert (Hempty : arch' = ∅).
    { apply map_eq. intros n. rewrite Harch, lookup_empty.
      case_decide as Hn; [|done].
      destruct (files d !! n) eqn:Hf; [|done].
      assert (false = true); [|done]. apply Hfound. exists n. by rewrite Hf. }
    unfold undoRmdir. rewrite H2, Hempty, bool_decide_eq_true_2 by done.
    cbn. split_and!; try done.
    + intros _. apply map_eq. intros dir'.
      destruct (decide (dir' = Qt.number ix)) as [->|Hne].
      * by rewrite lookup_delete_eq.
      * rewrite lookup_delete_ne by done. by apply Hothers.
    + intros dir' Hne. rewrite lookup_delete_ne by done. by apply Hothers.
Qed.

(** The restore loop leaves the archive alone. *)
Lemma restoreLoop_undo (dir : string) (lastUndo moveFile : bool)
    (chunks : list Z) :
  ∀ acc d, undo (restoreLoop ext dir lastUndo moveFile chunks acc d).2 = undo d.
Proof.
  induction chunks as [|i rest IH]; intros acc d; [done|].
  cbn [restoreLoop]. destruct moveFile.
  - unfold copyFromUndo.
    destruct lastUndo; cbn [negb];
      repeat case_match; simplify_eq; rewrite IH; done.
  - rewrite IH. by destruct lastUndo.
Qed.

(** The restore loop when the [cd] into the archive failed. *)
Lemma restoreLoop_nomove (dir : string) (lastUndo : bool) (chunks : list Z) :
  ∀ acc d,
  let r := restoreLoop ext dir lastUndo false chunks acc d in
  r.1 = acc
  ∧ ∀ n, files r.2 !! n
         = if lastUndo then files d !! n
           else if decide (n ∈ nameOf <$> chunks) then None else files d !! n.
Proof.
  induction chunks as [|i rest IH]; intros acc d; cbn zeta.
  - split; [done|]. intros n. destruct lastUndo; [done|].
    case_decide as H; [|done]. set_solver.
  - cbn [restoreLoop fmap list_fmap]. fold (nameOf i).
    match goal with |- context [restoreLoop _ _ _ _ _ _ ?d1] =>
      destruct (IH acc d1) as [H1 H2] end.
    split; [done|]. intros n. rewrite H2.
    destruct lastUndo; cbn [negb]; [done|].
    cbn. destruct (decide (n = nameOf i)) as [->|Hne].
    + rewrite lookup_delete_eq. repeat case_decide; try done; set_solver.
    + rewrite lookup_delete_ne by done. repeat case_decide; try done; set_solver.
Qed.

(** The restore loop outside the lastUndo case: every chunk file is deleted,
    then copied back when the archive has it. *)
Lemma restoreLoop_delete (dir : string) (arch : gmap string content)
    (chunks : list Z) :
  ∀ acc d, undo d !! dir = Some arch →
  let r := restoreLoop ext dir false true chunks acc d in
  r.1 = (acc ++ filter (λ i, is_Some (arch !! nameOf i)) chunks)%list
  ∧ ∀ n, files r.2 !! n
         = if decide (n ∈ nameOf <$> chunks) then arch !! n else files d !! n.
Proof.
  induction chunks as [|i rest IH]; intros acc d Hd; cbn zeta.
  - rewrite filter_nil, app_nil_r. split; [done|]. intros n.
    case_decide as H; [|done]. set_solver.
  - cbn [restoreLoop fmap list_fmap negb]. fold (nameOf i).
    unfold copyFromUndo, removeFile. cbn [files undo]. rewrite Hd.
    cbn [mbind option_bind]. rewrite lookup_delete_eq.
    destruct (arch !! nameOf i) as [c|] eqn:Ha.
    + match goal with |- context [restoreLoop _ _ _ _ _ ?a ?d1] =>
        destruct (IH a d1 Hd) as [H1 H2] end.
      rewrite H1. split.
      * rewrite filter_cons_True by (by rewrite Ha). by rewrite <- app_assoc.
      * intros n. rewrite H2. cbn.
        destruct (decide (n = nameOf i)) as [->|Hne].
        -- rewrite lookup_insert_eq. repeat case_decide; try done; set_solver.
        -- rewrite lookup_insert_ne, lookup_delete_ne by done.
           repeat case_decide; try done; set_solver.
    + match goal with |- context [restoreLoop _ _ _ _ _ ?a ?d1] =>
        destruct (IH a d1 Hd) as [H1 H2] end.
      rewrite H1. split.
      * rewrite filter_cons_False; [done|]. rewrite Ha. by intros [? [=]].
      * intros n. rewrite H2. cbn.
        destruct (decide (n = nameOf i)) as [->|Hne].
        -- rewrite lookup_delete_eq. repeat case_decide; try done; set_solver.
        -- rewrite lookup_delete_ne by done.
           repeat case_decide; try done; set_solver.
Qed.

(** The restore loop in the lastUndo case: a chunk file is copied back only
    where the cache has none. *)
Lemma restoreLoop_keep (dir : string) (arch : gmap string content)
    (chunks : list Z) :
  ∀ acc d, undo d !! dir = Some arch →
  let r := restoreLoop ext dir true true chunks acc d in
  (∀ i, i ∈ r.1 ↔ i ∈ acc ∨ (i ∈ chunks ∧ files d !! nameOf i = None
                                ∧ is_Some (arch !! nameOf i)))
  ∧ ∀ n, files r.2 !! n
         = if decide (n ∈ nameOf <$> chunks)
           then match files d !! n with Some c => Some c | None => arch !! n end
           else files d !! n.
Proof.
  induction chunks as [|i rest IH]; intros acc d Hd; cbn zeta.
  - split; [set_solver|]. intros n. case_decide as H; [|done]. set_solver.
  - cbn [restoreLoop fmap list_fmap negb]. fold (nameOf i).
    unfold copyFromUndo. rewrite Hd. cbn [mbind option_bind].
    destruct (arch !! nameOf i) as [c|] eqn:Ha;
      [destruct (files d !! nameOf i) as [c0|] eqn:Hf|].
    + destruct (IH acc d Hd) as [H1 H2]. split.
      * intros j. rewrite H1. split; [naive_solver (set_solver)|].
        intros [?|(Hj & Hn & Hs)]; [by left|right].
        apply elem_of_cons in Hj as [->|?]; [congruence|done].
      * intros n. rewrite H2.
        destruct (decide (n = nameOf i)) as [->|Hne].
        -- rewrite Hf. repeat case_decide; try done; set_solver.
        -- repeat case_decide; try done; set_solver.
    + set (d1 := mkCacheDir _ _).
      destruct (IH (acc ++ [i])%list d1 Hd) as [H1 H2]. split.
      * intros j. rewrite H1, elem_of_app, list_elem_of_singleton. cbn.
        split.
        -- intros [[?|Hji]|(Hj & Hn & Hs)]; [|subst j|].
           ++ by left.
           ++ right. rewrite Ha. set_solver.
           ++ right. destruct (decide (nameOf j = nameOf i)) as [E|Hne].
              ** rewrite E, lookup_insert_eq in Hn. done.
              ** rewrite lookup_insert_ne in Hn by done. set_solver.
        -- intros [?|(Hj & Hn & Hs)]; [by left; left|].
           apply elem_of_cons in Hj as [->|Hj]; [by left; right|].
           destruct (decide (nameOf j = nameOf i)) as [E|Hne].
           ++ left; right. by apply (chunkFileName_inj ext).
           ++ right. rewrite lookup_insert_ne by done. done.
      * intros n. rewrite H2. cbn.
        destruct (decide (n = nameOf i)) as [->|Hne].
        -- rewrite lookup_insert_eq, Hf, Ha.
           repeat case_decide; try done; set_solver.
        -- rewrite lookup_insert_ne by done.
           repeat case_decide; try done; set_solver.
    + destruct (IH acc d Hd) as [H1 H2]. split.
      * intros j. rewrite H1. split; [naive_solver (set_solver)|].
        intros [?|(Hj & Hn & Hs)]; [by left|right].
        apply elem_of_cons in Hj as [->|?]; [|done].
        rewrite Ha in Hs. by destruct Hs.
      * intros n. rewrite H2.
        destruct (decide (n = nameOf i)) as [->|Hne].
        -- rewrite Ha. destruct (files d !! nameOf i);
             repeat case_decide; try done; set_solver.
        -- repeat case_decide; try done; set_solver.
Qed.
End ArchiveFacts.

(** ** The invalidation protocol *)

(** The disk and the signals after [invalidatePreviews], branch by branch. *)
Lemma invalidatePreviews_unfold (stackIx stackMax : Z) (chunks : list Z)
    (w : World) :
  let ext := m_extension (mgr w) in
  let d := disk w in
  let w' := invalidatePreviews stackIx stackMax chunks w in
  (disk w', emitted w') =
    if (stackIx =? stackMax)%Z && negb (undoExists (Qt.number (stackIx - 1)) d)
    then
      let r := archiveChunks ext (stackIx - 1) chunks d in
      if r.1
      then (doCleanupOldPreviews r.2,
            (emitted (abortRendering w) ++ [cleanupOldPreviews])%list)
      else (r.2, emitted (abortRendering w))
    else
      let lastUndo := (stackIx =? stackMax - 1)%Z
                      && negb (undoExists (Qt.number stackMax) d) in
      let d1 := if lastUndo then (archiveChunks ext stackMax chunks d).2 else d in
      let r := restoreChunks ext stackIx lastUndo chunks d1 in
      (r.2, (emitted (abortRendering w)
             ++ [reloadChunks (m_cacheDir (mgr w)) r.1 ext])%list).
Proof.
  destruct w as [[ini ab ex cp cd ud tm th] d md em la].
  unfold invalidatePreviews.
  destruct tm, th; cbn [mgr disk emitted m_previewTimer m_previewThread m_extension m_cacheDir abortRendering negb setMgr setTimer setAbortPreview emit setThread setDisk setModified modified launched];
  (destruct ((stackIx =? stackMax)%Z && negb (undoExists (Qt.number (stackIx - 1)) d));
   [ destruct (archiveChunks ex (stackIx - 1) chunks d) as [[] d1]; reflexivity
   | destruct ((stackIx =? stackMax - 1)%Z && negb (undoExists (Qt.number stackMax) d));
     match goal with |- context [restoreChunks ?a ?b ?c ?e ?f] => destruct (restoreChunks a b c e f) as [l d2] end; reflexivity ]).
Qed.

Lemma qSort_elem_of (l : list Z) (i : Z) : i ∈ Qt.qSort l ↔ i ∈ l.
Proof. unfold Qt.qSort. by rewrite merge_sort_Permutation. Qed.

Lemma qSort_Sorted (l : list Z) : Sorted Z.le (Qt.qSort l).
Proof. apply (Sorted_merge_sort Z.le). Qed.

(** C9: archiving the chunks of a list at a stack position that has no
    archive yet and then restoring at that position is a round trip.  In
    between the chunk files are gone from the cache; the restore returns,
    sorted ascending, exactly the chunks of the list that had a cache file;
    afterwards the cache holds the same files with the same content as
    before.  This holds in and outside the lastUndo case. *)
Theorem archive_restore_roundtrip (ext : string) (ix : Z) (lastUndo : bool)
    (chunks : list Z) (d : CacheDir) :
  undoExists (Qt.number ix) d = false →
  let archived := (archiveChunks ext ix chunks d).2 in
  let r := restoreChunks ext ix lastUndo chunks archived in
  (∀ i, i ∈ chunks → files archived !! chunkFileName i ext = None)
  ∧ (∀ i, i ∈ r.1 ↔ i ∈ chunks ∧ is_Some (files d !! chunkFileName i ext))
  ∧ Sorted Z.le r.1
  ∧ files r.2 = files d.
Proof.
  intros Hfresh archived r.
  assert (Hnone : undo d !! Qt.number ix = None).
  { unfold undoExists in Hfresh. apply bool_decide_eq_false in Hfresh.
    by apply eq_None_not_Some. }
  destruct (archiveChunks_fresh ext ix chunks d Hnone)
    as (Hfiles & Hfound & Harch & Hkeep & Hothers).
  fold archived in Hfiles, Hfound, Harch, Hkeep, Hothers.
  set (names := (λ i, chunkFileName i ext) <$> chunks) in *.
  assert (Hin : ∀ i, i ∈ chunks → chunkFileName i ext ∈ names).
  { intros i Hi. subst names. apply list_elem_of_fmap. eauto. }
  split.
  { intros i Hi. rewrite Hfiles. by rewrite decide_True by auto. }
  subst r. unfold restoreChunks, undoExists.
  destruct (archiveChunks ext ix chunks d).1 eqn:Ef.
  - destruct (Harch eq_refl) as (arch & Ha & Hlook).
    rewrite bool_decide_eq_true_2 by (by rewrite Ha).
    destruct lastUndo.
    + destruct (restoreLoop_keep ext (Qt.number ix) arch chunks [] archived Ha)
        as [H1 H2].
      destruct (restoreLoop ext (Qt.number ix) true true chunks [] archived)
        as [l d3]. cbn [fst snd] in *. split_and!.
      * intros i. rewrite qSort_elem_of, H1. split.
        -- intros [?|(Hi & _ & Hs)]; [set_solver|]. split; [done|].
           rewrite Hlook in Hs. by rewrite decide_True in Hs by auto.
        -- intros [Hi Hs]. right. split_and!; [done|..].
           ++ rewrite Hfiles. by rewrite decide_True by auto.
           ++ rewrite Hlook. by rewrite decide_True by auto.
      * apply qSort_Sorted.
      * apply map_eq. intros n. rewrite H2, Hfiles, Hlook. fold names.
        repeat case_decide; done.
    + destruct (restoreLoop_delete ext (Qt.number ix) arch chunks [] archived Ha)
        as [H1 H2].
      destruct (restoreLoop ext (Qt.number ix) false true chunks [] archived)
        as [l d3]. cbn [fst snd] in *. split_and!.
      * intros i. rewrite qSort_elem_of, H1. cbn. rewrite list_elem_of_filter.
        rewrite Hlook. split.
        -- intros [Hs Hi]. by rewrite decide_True in Hs by auto.
        -- intros [Hi Hs]. by rewrite decide_True by auto.
      * apply qSort_Sorted.
      * apply map_eq. intros n. rewrite H2, Hfiles, Hlook. fold names.
        repeat case_decide; done.
  - assert (Hno : ∀ n, n ∈ names → files d !! n = None).
    { intros n Hn. destruct (files d !! n) eqn:E; [|done].
      assert (false = true); [|done]. apply Hfound. exists n. by rewrite E. }
    rewrite (Hkeep eq_refl), bool_decide_eq_false_2
      by (rewrite Hnone; by intros [? [=]]).
    destruct (restoreLoop_nomove ext (Qt.number ix) lastUndo chunks [] archived)
      as [H1 H2].
    destruct (restoreLoop ext (Qt.number ix) lastUndo false chunks [] archived)
      as [l d3]. cbn [fst snd] in *. subst l. split_and!.
    * intros i. rewrite qSort_elem_of. split; [set_solver|].
      intros [Hi Hs]. rewrite Hno in Hs by auto. by destruct Hs.
    * apply qSort_Sorted.
    * apply map_eq. intros n. rewrite H2, Hfiles. fold names.
      destruct lastUndo; repeat case_decide; try done; by rewrite Hno.
Qed.

(** C7: with stackIx = 3, stackMax = 5, the dirty chunks 0 and 25, and an
    archive directory 3 that holds the file of chunk 0 but not that of
    chunk 25, [invalidatePreviews] reports exactly chunk 0 through
    [reloadChunks], the cache then holds the archived file of chunk 0, and it
    holds no file for chunk 25. *)
Theorem invalidate_restores_only_archived (w : World)
    (arch : gmap string content) (c : content) :
  undo (disk w) !! "3" = Some arch →
  arch !! chunkFileName 0 (m_extension (mgr w)) = Some c →
  arch !! chunkFileName 25 (m_extension (mgr w)) = None →
  let w' := invalidatePreviews 3 5 [0; 25]%Z w in
  emitted w' = (emitted (abortRendering w)
                ++ [reloadChunks (m_cacheDir (mgr w)) [0%Z]
                                 (m_extension (mgr w))])%list
  ∧ files (disk w') !! chunkFileName 0 (m_extension (mgr w)) = Some c
  ∧ files (disk w') !! chunkFileName 25 (m_extension (mgr w)) = None.
Proof.
  intros Hdir H0 H25 w'.
  pose proof (invalidatePreviews_unfold 3 5 [0; 25]%Z w) as E.
  cbn zeta in E. fold w' in E.
  change ((3 =? 5)%Z) with false in E. change ((3 =? 5 - 1)%Z) with false in E.
  cbn [andb] in E.
  unfold restoreChunks, undoExists in E.
  change (Qt.number 3) with "3" in E.
  rewrite bool_decide_eq_true_2 in E by (by rewrite Hdir).
  destruct (restoreLoop_delete (m_extension (mgr w)) "3" arch [0; 25]%Z []
              (disk w) Hdir) as [H1 H2].
  destruct (restoreLoop (m_extension (mgr w)) "3" false true [0; 25]%Z []
              (disk w)) as [l d3].
  cbn [fst snd] in *. injection E as Ed Ee.
  rewrite Ed, Ee, H1, !H2.
  rewrite filter_cons_True by (by rewrite H0).
  rewrite filter_cons_False by (rewrite H25; by intros [? [=]]).
  rewrite filter_nil. split_and!.
  - reflexivity.
  - rewrite decide_True by set_solver. done.
  - rewrite decide_True by set_solver. done.
Qed.


(** ** The render runner *)

Lemma absoluteFilePath_nonempty (dir name : string) :
  Qt.isEmpty (Qt.absoluteFilePath dir name) = false.
Proof. by destruct dir. Qed.

Lemma StronglySorted_sublist {A} (R : relation A) (l1 l2 : list A) :
  l1 `sublist_of` l2 → StronglySorted R l2 → StronglySorted R l1.
Proof.
  induction 1 as [|x l1 l2 Hs IH|x l1 l2 Hs IH]; intros Hsorted.
  - constructor.
  - apply StronglySorted_inv in Hsorted as [H1 H2]. constructor; [auto|].
    rewrite Forall_forall in H2 |- *. intros y Hy. apply H2.
    eapply elem_of_submseteq; [exact Hy|]. by apply sublist_submseteq.
  - apply StronglySorted_inv in Hsorted as [H1 H2]. auto.
Qed.

Lemma progressOf_1_2 : progressOf 1 2 = 333%Z.
Proof. vm_compute. reflexivity. Qed.

Lemma progressOf_2_1 : progressOf 2 1 = 666%Z.
Proof. vm_compute. reflexivity. Qed.

Section RunnerFacts.
Variable chunkSize : Z.
Variable rendererpath : string.
Variable proc : nat → Z → ProcessRun.
Variable scene : string.

#[local] Abbreviation iter := (iteration chunkSize rendererpath proc scene).
#[local] Abbreviation loop := (renderLoop chunkSize rendererpath proc scene).
#[local] Abbreviation rnd := (round chunkSize rendererpath proc scene).
#[local] Abbreviation rnds := (rounds chunkSize rendererpath proc scene).

(** The loop from a state is the loop from any state it passes through. *)
Lemma renderLoop_rounds (k : nat) :
  ∀ s s', rnds k s = Some s' →
  loop (ct s) (chunks s) (world s)
  = loop (ct s') (chunks s') (world s').
Proof.
  induction k as [|k IH]; intros s s' H; cbn in H.
  - by injection H as <-.
  - destruct (rnd s) as [s1|] eqn:E; [|done]. cbn in H.
    rewrite <- (IH _ _ H). clear H IH.
    unfold round in E. destruct s as [n [|i rest] w]; [done|].
    cbn [ct chunks world] in *. cbn [renderLoop].
    destruct (iter i rest (S n) w) as [[] w']; [|done].
    by injection E as <-.
Qed.

(** A round changes nothing of the manager but [m_abortPreview], and nothing
    of the archive. *)
Lemma iteration_frame (i : Z) (rest : list Z) (n : nat) (w : World) :
  let r := iter i rest n w in
  m_extension (mgr r.2) = m_extension (mgr w)
  ∧ m_cacheDir (mgr r.2) = m_cacheDir (mgr w)
  ∧ m_consumerParams (mgr r.2) = m_consumerParams (mgr w)
  ∧ undo (disk r.2) = undo (disk w).
Proof.
  unfold iteration.
  destruct (fileExists _ _); [done|].
  destruct (started _); [|done].
  destruct (exitStatus _); [by destruct (leftFile _)|].
  cbn. destruct (_ || _); cbn; destruct (leftFile _); done.
Qed.

(** A round that goes on keeps every file that was in the cache. *)
Lemma iteration_keeps_files (i : Z) (rest : list Z) (n : nat) (w w' : World) :
  iter i rest n w = (true, w') →
  ∀ name c, files (disk w) !! name = Some c → files (disk w') !! name = Some c.
Proof.
  unfold iteration, fileExists.
  case_bool_decide as Hex.
  - intros [= <-]. done.
  - destruct (started _); [|by intros [= <-]].
    destruct (exitStatus _); [|done].
    intros [= <-] name c Hf. cbn.
    destruct (leftFile _) as [c'|]; cbn; [|done].
    rewrite lookup_insert_ne; [done|]. intros <-. apply Hex. by rewrite Hf.
Qed.

Lemma rounds_keep_files (k : nat) :
  ∀ s s', rnds k s = Some s' →
  ∀ name c, files (disk (world s)) !! name = Some c →
            files (disk (world s')) !! name = Some c.
Proof.
  induction k as [|k IH]; intros s s' H name c Hf; cbn in H.
  - by injection H as <-.
  - destruct (rnd s) as [s1|] eqn:E; [|done]. cbn in H.
    apply (IH _ _ H). clear H IH.
    unfold round in E. destruct s as [n [|i rest] w]; [done|].
    cbn [ct chunks world] in *.
    destruct (iter i rest (S n) w) as [[] w'] eqn:Ei; [|done].
    injection E as <-. cbn. by eapply iteration_keeps_files.
Qed.


Lemma rounds_add (a b : nat) :
  ∀ s, rnds (a + b) s = rnds a s ≫= rnds b.
Proof.
  induction a as [|a IH]; intros s; cbn; [done|].
  destruct (rnd s) as [s1|]; cbn; [apply IH|done].
Qed.

(** The round in which the renderer exits abnormally: one event, the chunk's
    file removed, the loop left. *)
Lemma iteration_crash (i : Z) (rest : list Z) (n : nat) (w : World) :
  let name := chunkFileName i (m_extension (mgr w)) in
  fileExists name (disk w) = false →
  started (proc n i) = true →
  exitStatus (proc n i) = CrashExit →
  ∃ w', iter i rest n w = (false, w')
    ∧ emitted w'
      = (emitted w
         ++ [if m_abortPreview (mgr w) || abortRequested (proc n i)
             then previewRender 0 "" 1000 else previewRender i "" (-1)])%list
    ∧ launched w'
      = (launched w ++ [(rendererpath, processArgs chunkSize scene i (mgr w))])%list
    ∧ files (disk w') = delete name (files (disk w))
    ∧ undo (disk w') = undo (disk w).
Proof.
  intros name Hex Hst Hcr. unfold iteration. fold name.
  rewrite Hex, Hst, Hcr. eexists. split; [reflexivity|].
  cbn. destruct (m_abortPreview (mgr w) || abortRequested (proc n i));
    destruct (leftFile (proc n i)); cbn; by rewrite ?delete_insert_eq.
Qed.

End RunnerFacts.

Section RunnerTheorems.
Variable chunkSize : Z.
Variable rendererpath : string.
Variable proc : nat → Z → ProcessRun.

Lemma doPreviewRender_rounds (scene : string) (queue : list Z) (w0 : World)
    (k : nat) (s : LoopState) :
  let scenePath := Qt.absoluteFilePath (m_cacheDir (mgr w0)) scene in
  rounds chunkSize rendererpath proc scenePath k (loopEntry queue w0) = Some s →
  doPreviewRender chunkSize rendererpath proc scene queue w0
  = let w := world (renderLoop chunkSize rendererpath proc scenePath
                               (ct s) (chunks s) (world s)) in
    let w := setDisk (removeFile scene (disk w)) w in
    setMgr (setAbortPreview false (mgr w)) w.
Proof.
  intros scenePath H. unfold doPreviewRender.
  apply renderLoop_rounds in H. cbn [loopEntry ct chunks world] in H.
  cbn [emit mgr]. fold scenePath. by rewrite H.
Qed.

(** C4: when the loop of a batch reaches a chunk that is not cached and
    whose renderer starts and exits abnormally with no abort pending or
    requested, the batch ends there: the last event is
    [previewRender(i, empty, -1)], no further renderer is started, the
    chunk's file is not in the cache, and every other file the cache held
    at any earlier round of the batch is still there with its content. *)
Theorem render_failure_stops_batch (scene : string) (queue : list Z)
    (w0 : World) (k n : nat) (i : Z) (rest : list Z) (w : World) :
  let scenePath := Qt.absoluteFilePath (m_cacheDir (mgr w0)) scene in
  let name := chunkFileName i (m_extension (mgr w)) in
  rounds chunkSize rendererpath proc scenePath k (loopEntry queue w0)
    = Some (mkLoop n (i :: rest) w) →
  fileExists name (disk w) = false →
  started (proc (S n) i) = true →
  exitStatus (proc (S n) i) = CrashExit →
  m_abortPreview (mgr w) = false →
  abortRequested (proc (S n) i) = false →
  let w' := doPreviewRender chunkSize rendererpath proc scene queue w0 in
  emitted w' = (emitted w ++ [previewRender i "" (-1)])%list
  ∧ launched w'
    = (launched w ++ [(rendererpath, processArgs chunkSize scenePath i (mgr w))])%list
  ∧ files (disk w') !! name = None
  ∧ ∀ (k' : nat) (s : LoopState), (k' ≤ k)%nat →
      rounds chunkSize rendererpath proc scenePath k' (loopEntry queue w0)
        = Some s →
      ∀ f c, f ≠ scene → files (disk (world s)) !! f = Some c →
             files (disk w') !! f = Some c.
Proof.
  intros scenePath name Hk Hex Hst Hcr Hab Har w'.
  subst w'. rewrite (doPreviewRender_rounds _ _ _ _ _ Hk).
  cbn [ct chunks world renderLoop]. fold scenePath.
  destruct (iteration_crash chunkSize rendererpath proc scenePath i rest (S n) w
              Hex Hst Hcr) as (w1 & -> & Hem & Hla & Hfi & _).
  rewrite Hab, Har in Hem. cbn [orb] in Hem.
  cbn. rewrite Hem, Hla, Hfi. split_and!; [done|done|..].
  - destruct (decide (name = scene)) as [->|Hne].
    + by rewrite lookup_delete_eq.
    + by rewrite lookup_delete_ne, lookup_delete_eq by done.
  - intros k' s Hle Hk' f c Hf Hs.
    replace k with (k' + (k - k'))%nat in Hk by lia.
    rewrite rounds_add, Hk' in Hk. cbn in Hk.
    pose proof (rounds_keep_files _ _ _ _ _ _ _ Hk f c Hs) as Hw.
    cbn in Hw. rewrite lookup_delete_ne by done.
    rewrite lookup_delete_ne; [done|]. intros <-.
    unfold fileExists in Hex. apply bool_decide_eq_false in Hex.
    apply Hex. by exists c.
Qed.




(** The chunks reported complete by the events of the loop form, in the
    order of the events, a sublist of the queue. *)
Lemma renderLoop_completions (scenePath : string) (queue : list Z) :
  ∀ (n : nat) (w : World),
  let st := renderLoop chunkSize rendererpath proc scenePath n queue w in
  ∃ evs : list Signal,
    emitted (world st) = (emitted w ++ evs)%list
    ∧ omap renderedChunk evs `sublist_of` queue.
Proof.
  induction queue as [|i rest IH]; intros n w; cbn zeta.
  - exists []. cbn. rewrite app_nil_r. split; [done|constructor].
  - cbn [renderLoop]. unfold iteration.
    set (name := chunkFileName i (m_extension (mgr w))).
    set (path := Qt.absoluteFilePath (m_cacheDir (mgr w)) name).
    set (progress := match rest with [] => 1000%Z | _ => _ end).
    assert (Hgo : ∀ w1,
      emitted w1 = (emitted w ++ [previewRender i path progress])%list →
      let st := renderLoop chunkSize rendererpath proc scenePath (S n) rest w1 in
      ∃ evs : list Signal,
        emitted (world st) = (emitted w ++ evs)%list
        ∧ omap renderedChunk evs `sublist_of` i :: rest).
    { intros w1 Hw1. cbn zeta.
      destruct (IH (S n) w1) as (evs & He & Hsub).
      exists (previewRender i path progress :: evs).
      rewrite He, Hw1, <- app_assoc. split; [done|].
      cbn. unfold path. rewrite absoluteFilePath_nonempty.
      by constructor. }
    destruct (fileExists name (disk w)).
    + apply Hgo. reflexivity.
    + destruct (started (proc (S n) i)).
      * destruct (exitStatus (proc (S n) i)).
        -- apply Hgo. reflexivity.
        -- cbn [world].
           destruct (m_abortPreview (mgr w) || abortRequested (proc (S n) i)) eqn:Hab.
           ++ exists [previewRender 0 "" 1000]. cbn. rewrite Hab. cbn.
              split; [done|apply sublist_nil_l].
           ++ exists [previewRender i "" (-1)]. cbn. rewrite Hab. cbn.
              split; [done|apply sublist_nil_l].
      * destruct (IH (S n)
                    (mkWorld (mgr w) (disk w) (modified w) (emitted w)
                       (launched w ++ [(rendererpath,
                          processArgs chunkSize scenePath i (mgr w))])))
          as (evs & He & Hsub).
        exists evs. split; [done|]. by constructor.
Qed.

(** The round of a chunk that is not cached and whose renderer starts and
    exits normally. *)
Lemma iteration_rendered (scenePath : string) (i : Z) (rest : list Z)
    (n : nat) (w : World) :
  let name := chunkFileName i (m_extension (mgr w)) in
  fileExists name (disk w) = false →
  started (proc n i) = true →
  exitStatus (proc n i) = NormalExit →
  ∃ w', iteration chunkSize rendererpath proc scenePath i rest n w = (true, w')
    ∧ emitted w'
      = (emitted w
         ++ [previewRender i (Qt.absoluteFilePath (m_cacheDir (mgr w)) name)
               (match rest with
                | [] => 1000%Z
                | _ => progressOf n (length rest)
                end)])%list
    ∧ launched w'
      = (launched w
         ++ [(rendererpath, processArgs chunkSize scenePath i (mgr w))])%list
    ∧ m_extension (mgr w') = m_extension (mgr w)
    ∧ m_cacheDir (mgr w') = m_cacheDir (mgr w)
    ∧ m_consumerParams (mgr w') = m_consumerParams (mgr w)
    ∧ ∀ f, f ≠ name → fileExists f (disk w') = fileExists f (disk w).
Proof.
  intros name Hex Hst Hno. unfold iteration. fold name.
  rewrite Hex, Hst, Hno. eexists. split; [reflexivity|].
  cbn. split_and!; try done.
  intros f Hf. unfold fileExists, processWrites.
  destruct (leftFile (proc n i)); cbn; [|done].
  by rewrite lookup_insert_ne.
Qed.

End RunnerTheorems.

Lemma qSort_scenario (queue : list Z) :
  queue ≡ₚ [0; 25; 50]%Z → Qt.qSort queue = [0; 25; 50]%Z.
Proof.
  intros Hp. apply (Sorted_unique Z.le).
  - apply (Sorted_merge_sort Z.le).
  - repeat constructor; lia.
  - unfold Qt.qSort. by rewrite merge_sort_Permutation.
Qed.

(** C8: for every queue the chunks reported complete come, in the order of
    their events, as a sublist of the sorted queue, hence in ascending order
    of start frame.  With a chunk size of 25, the dirty chunks 0, 25 and 50
    in any order, none of them cached and every renderer exiting normally,
    the runner starts the renderer for 0, 25 and 50 in that order and emits
    the progress values 333, 666 and 1000 after the initial event. *)
Theorem doPreviewRender_ascending (rendererpath scene : string)
    (proc : nat → Z → ProcessRun) (w0 : World) :
  (∀ (chunkSize : Z) (queue : list Z),
     ∃ evs : list Signal,
       emitted (doPreviewRender chunkSize rendererpath proc scene queue w0)
       = (emitted w0 ++ evs)%list
       ∧ omap renderedChunk evs `sublist_of` Qt.qSort queue
       ∧ StronglySorted Z.le (omap renderedChunk evs))
  ∧ (∀ queue : list Z,
       let ext := m_extension (mgr w0) in
       let dir := m_cacheDir (mgr w0) in
       let scenePath := Qt.absoluteFilePath dir scene in
       let w' := doPreviewRender 25 rendererpath proc scene queue w0 in
       queue ≡ₚ [0; 25; 50]%Z →
       (∀ i, i ∈ queue → fileExists (chunkFileName i ext) (disk w0) = false) →
       (∀ n i, started (proc n i) = true ∧ exitStatus (proc n i) = NormalExit) →
       emitted w'
       = (emitted w0
          ++ [previewRender 0 "" 0;
              previewRender 0 (Qt.absoluteFilePath dir ("0." +:+ ext)) 333;
              previewRender 25 (Qt.absoluteFilePath dir ("25." +:+ ext)) 666;
              previewRender 50 (Qt.absoluteFilePath dir ("50." +:+ ext)) 1000])%list
       ∧ launched w'
         = (launched w0
            ++ [(rendererpath,
                 [scenePath; "in=0"; "out=24"; "-consumer";
                  "avformat:" +:+ Qt.absoluteFilePath dir ("0." +:+ ext)]
                 ++ m_consumerParams (mgr w0));
                (rendererpath,
                 [scenePath; "in=25"; "out=49"; "-consumer";
                  "avformat:" +:+ Qt.absoluteFilePath dir ("25." +:+ ext)]
                 ++ m_consumerParams (mgr w0));
                (rendererpath,
                 [scenePath; "in=50"; "out=74"; "-consumer";
                  "avformat:" +:+ Qt.absoluteFilePath dir ("50." +:+ ext)]
                 ++ m_consumerParams (mgr w0))])%list).
Proof.
  split.
  - intros chunkSize queue.
    destruct (renderLoop_completions chunkSize rendererpath proc
                (Qt.absoluteFilePath (m_cacheDir (mgr w0)) scene)
                (Qt.qSort queue) 0 (emit (previewRender 0 "" 0) w0))
      as (evs & He & Hsub).
    exists (previewRender 0 "" 0 :: evs). split_and!.
    + unfold doPreviewRender. cbn [emit mgr]. cbn. cbn in He. rewrite He.
      by rewrite <- app_assoc.
    + done.
    + eapply StronglySorted_sublist; [exact Hsub|].
      apply (StronglySorted_merge_sort Z.le).
  - intros queue ext dir scenePath w' Hperm Hnone Hproc.
    assert (Hq : ∀ i, i ∈ [0; 25; 50]%Z →
                      fileExists (chunkFileName i ext) (disk w0) = false).
    { intros i Hi. apply Hnone. by rewrite Hperm. }
    subst w'. unfold doPreviewRender. rewrite (qSort_scenario _ Hperm).
    set (w1 := emit (previewRender 0 "" 0) w0).
    change (m_cacheDir (mgr w1)) with dir. fold scenePath.
    cbn [renderLoop].
    destruct (iteration_rendered 25 rendererpath proc scenePath 0 [25; 50]%Z 1 w1)
      as (w2 & -> & He2 & Hl2 & Hx2 & Hd2 & Hc2 & Hf2);
      [apply Hq; set_solver|apply Hproc..|].
    destruct (iteration_rendered 25 rendererpath proc scenePath 25 [50]%Z 2 w2)
      as (w3 & -> & He3 & Hl3 & Hx3 & Hd3 & Hc3 & Hf3);
      [|apply Hproc..|].
    { rewrite Hx2, Hf2.
      - apply Hq. set_solver.
      - intros E. by apply chunkFileName_inj in E. }
    destruct (iteration_rendered 25 rendererpath proc scenePath 50 [] 3 w3)
      as (w4 & -> & He4 & Hl4 & Hx4 & Hd4 & Hc4 & Hf4);
      [|apply Hproc..|].
    { rewrite Hx3, Hx2, Hf3, Hf2.
      - apply Hq. set_solver.
      - intros E. by apply chunkFileName_inj in E.
      - rewrite Hx2. intros E. by apply chunkFileName_inj in E. }
    cbn. rewrite He4, He3, He2, Hl4, Hl3, Hl2.
    unfold processArgs. rewrite Hd3, Hd2, Hx3, Hx2, Hc3, Hc2.
    cbn [length]. rewrite progressOf_1_2, progressOf_2_1.
    subst w1. cbn. rewrite <- !app_assoc. split; reflexivity.
Qed.

(** ** The theorems at concrete inputs *)

Lemma archive_restore_roundtrip_witness :
  undoExists (Qt.number 2) twoChunks = false
  ∧ let archived := (archiveChunks "mp4" 2 [0; 25; 50]%Z twoChunks).2 in
    let r := restoreChunks "mp4" 2 false [0; 25; 50]%Z archived in
    (∀ i, i ∈ [0; 25; 50]%Z → files archived !! chunkFileName i "mp4" = None)
    ∧ (∀ i, i ∈ r.1 ↔ i ∈ [0; 25; 50]%Z
                       ∧ is_Some (files twoChunks !! chunkFileName i "mp4"))
    ∧ Sorted Z.le r.1
    ∧ files r.2 = files twoChunks.
Proof.
  split; [reflexivity|].
  apply (archive_restore_roundtrip "mp4" 2 false [0; 25; 50]%Z twoChunks).
  reflexivity.
Defined.

Lemma invalidate_restores_only_archived_witness :
  let w := worldOf archiveAtThree in
  undo (disk w) !! "3" = Some {[ "0.mp4" := "old 0" ]}
  ∧ ({[ "0.mp4" := "old 0" ]} : gmap string content) !! "0.mp4" = Some "old 0"
  ∧ ({[ "0.mp4" := "old 0" ]} : gmap string content) !! "25.mp4" = None
  ∧ emitted (invalidatePreviews 3 5 [0; 25]%Z w) = [reloadChunks "/c" [0%Z] "mp4"]
  ∧ files (disk (invalidatePreviews 3 5 [0; 25]%Z w)) !! "0.mp4" = Some "old 0"
  ∧ files (disk (invalidatePreviews 3 5 [0; 25]%Z w)) !! "25.mp4" = None.
Proof.
  split_and!; [reflexivity..| | |];
    apply (invalidate_restores_only_archived (worldOf archiveAtThree)
             {[ "0.mp4" := "old 0" ]} "old 0"); reflexivity.
Defined.


Lemma render_failure_stops_batch_witness :
  let w := afterChunk0 crashAt25 in
  let w' := doPreviewRender 25 "melt" crashAt25 "preview.mlt" [25; 0]%Z
              (worldOf sceneOnly) in
  rounds 25 "melt" crashAt25 "/c/preview.mlt" 1
         (loopEntry [25; 0]%Z (worldOf sceneOnly))
    = Some (mkLoop 1 [25]%Z w)
  ∧ emitted w' = (emitted w ++ [previewRender 25 "" (-1)])%list
  ∧ files (disk w') !! "25.mp4" = None
  ∧ files (disk w') !! "0.mp4" = Some "video".
Proof.
  assert (H : rounds 25 "melt" crashAt25 "/c/preview.mlt" 1
                (loopEntry [25; 0]%Z (worldOf sceneOnly))
              = Some (mkLoop 1 [25]%Z (afterChunk0 crashAt25)))
    by (vm_compute; reflexivity).
  destruct (render_failure_stops_batch 25 "melt" crashAt25 "preview.mlt"
              [25; 0]%Z (worldOf sceneOnly) 1 1 25 [] (afterChunk0 crashAt25) H
              ltac:(vm_compute; reflexivity) ltac:(reflexivity)
              ltac:(reflexivity) ltac:(vm_compute; reflexivity)
              ltac:(reflexivity))
    as (He & _ & Hf & Hkeep).
  split_and!; [exact H|exact He|exact Hf|].
  apply (Hkeep 1 _ ltac:(lia) H "0.mp4" "video"); [discriminate|].
  vm_compute; reflexivity.
Defined.



Lemma doPreviewRender_ascending_witness :
  let w' := doPreviewRender 25 "melt" goodRenderer "preview.mlt" [50; 0; 25]%Z
              (worldOf sceneOnly) in
  [50; 0; 25]%Z ≡ₚ [0; 25; 50]%Z
  ∧ (∀ i, i ∈ [50; 0; 25]%Z →
          fileExists (chunkFileName i "mp4") (disk (worldOf sceneOnly)) = false)
  ∧ (∀ n i, started (goodRenderer n i) = true
            ∧ exitStatus (goodRenderer n i) = NormalExit)
  ∧ emitted w'
    = [previewRender 0 "" 0; previewRender 0 "/c/0.mp4" 333;
       previewRender 25 "/c/25.mp4" 666; previewRender 50 "/c/50.mp4" 1000]
  ∧ launched w'
    = [("melt", ["/c/preview.mlt"; "in=0"; "out=24"; "-consumer";
                 "avformat:/c/0.mp4"; "an=1"]);
       ("melt", ["/c/preview.mlt"; "in=25"; "out=49"; "-consumer";
                 "avformat:/c/25.mp4"; "an=1"]);
       ("melt", ["/c/preview.mlt"; "in=50"; "out=74"; "-consumer";
                 "avformat:/c/50.mp4"; "an=1"])].
Proof.
  assert (Hp : [50; 0; 25]%Z ≡ₚ [0; 25; 50]%Z)
    by (apply (Permutation_cons_append [0; 25]%Z 50%Z)).
  assert (Hc : ∀ i, i ∈ [50; 0; 25]%Z →
            fileExists (chunkFileName i "mp4") (disk (worldOf sceneOnly)) = false).
  { intros i Hi. repeat (apply elem_of_cons in Hi as [->|Hi]; [reflexivity|]).
    by apply elem_of_nil in Hi. }
  assert (Hr : ∀ n i, started (goodRenderer n i) = true
                      ∧ exitStatus (goodRenderer n i) = NormalExit) by done.
  split_and!; [exact Hp|exact Hc|exact Hr|..];
    apply (proj2 (doPreviewRender_ascending "melt" "preview.mlt" goodRenderer
                    (worldOf sceneOnly)) [50; 0; 25]%Z Hp Hc Hr).
Defined.

(** ** Where the claims as first stated fail *)



(** * Further properties of the code *)

(** ** More on the archive: pruning again, dropping a redo branch *)

Lemma CacheDir_eq (d1 d2 : CacheDir) :
  files d1 = files d2 → undo d1 = undo d2 → d1 = d2.
Proof. destruct d1, d2. cbn. by intros -> ->. Qed.

Lemma cleanupLoop_short (dirs : list string) (d : CacheDir) :
  (length dirs ≤ 5)%nat → cleanupLoop dirs d = d.
Proof.
  intros H. destruct dirs as [|dir rest]; [done|].
  cbn [cleanupLoop]. by rewrite (proj2 (Nat.ltb_ge _ _) H).
Qed.

Lemma qSortStrings_length (l : list string) :
  length (Qt.qSortStrings l) = length l.
Proof. unfold Qt.qSortStrings. by rewrite merge_sort_Permutation. Qed.

(** Pruning leaves a disk with at most five archive directories as it is. *)
Lemma doCleanupOldPreviews_small (d : CacheDir) :
  (length (undoEntryList d) ≤ 5)%nat → doCleanupOldPreviews d = d.
Proof.
  intros H. unfold doCleanupOldPreviews. apply cleanupLoop_short.
  by rewrite qSortStrings_length.
Qed.

(** X1: Pruning twice is pruning once. *)
Theorem doCleanupOldPreviews_idempotent (d : CacheDir) :
  doCleanupOldPreviews (doCleanupOldPreviews d) = doCleanupOldPreviews d.
Proof.
  apply doCleanupOldPreviews_small.
  apply (doCleanupOldPreviews_keeps_last_five d).
Qed.

(** X2: Pruning at work: the cache files are not touched, at most five archive
    directories are left, each as it was, none is made, and a directory that
    is deleted comes before every directory that is kept in the order of
    their names as text. *)
Theorem doCleanupOldPreviews_removes_first_names (d : CacheDir) :
  let d' := doCleanupOldPreviews d in
  files d' = files d
  ∧ (length (undoEntryList d') ≤ 5)%nat
  ∧ (∀ x a, undo d' !! x = Some a → undo d !! x = Some a)
  ∧ (∀ x y, is_Some (undo d !! x) → undo d' !! x = None →
            is_Some (undo d' !! y) → Qt.QString_le x y).
Proof.
  cbn zeta.
  destruct (doCleanupOldPreviews_keeps_last_five d) as (Hf & Hu & _ & Hlen).
  set (l := Qt.qSortStrings (undoEntryList d)) in *.
  split_and!; [done|done|..].
  - intros x a. rewrite Hu. by case_decide.
  - intros x y Hx Hgone Hkept.
    assert (Hin : ∀ z, z ∈ l ↔ is_Some (undo d !! z)).
    { intros z. subst l. unfold Qt.qSortStrings, undoEntryList.
      by rewrite merge_sort_Permutation, elem_of_elements, elem_of_dom. }
    assert (Hs : StronglySorted Qt.QString_le l)
      by apply (StronglySorted_merge_sort Qt.QString_le).
    rewrite <- (take_drop (length l - 5) l) in Hs.
    apply (StronglySorted_app_1_elem_of _ _ _ _ _ Hs).
    + assert (Hxl : x ∈ l) by (by apply Hin).
      rewrite <- (take_drop (length l - 5) l) in Hxl.
      apply elem_of_app in Hxl as [?|Hd]; [done|].
      rewrite Hu, decide_True in Hgone by done.
      rewrite Hgone in Hx. by destruct Hx.
    + rewrite Hu in Hkept. case_decide; [done|]. by destruct Hkept.
Qed.

Section RemoveInvalidUndoFacts.
Variable toInt : string → Z.

Lemma removeInvalidLoop_spec (ix : Z) (dirs : list string) :
  ∀ d : CacheDir,
  files (removeInvalidLoop toInt ix dirs d) = files d
  ∧ ∀ x, undo (removeInvalidLoop toInt ix dirs d) !! x
         = if decide (x ∈ dirs ∧ (ix ≤ toInt x)%Z) then None else undo d !! x.
Proof.
  induction dirs as [|dir rest IH]; intros d.
  - split; [done|]. intros x. cbn. case_decide as H; [|done].
    destruct H as [H _]. by apply elem_of_nil in H.
  - cbn [removeInvalidLoop].
    match goal with |- context [removeInvalidLoop _ _ _ ?d1] =>
      destruct (IH d1) as [H1 H2] end.
    destruct (undo_undoRemoveRecursively dir d) as [Hu Hf].
    split.
    + rewrite H1. by destruct (ix <=? toInt dir)%Z.
    + intros x. rewrite H2.
      destruct (ix <=? toInt dir)%Z eqn:E.
      * apply Z.leb_le in E. rewrite Hu.
        destruct (decide (x = dir)) as [->|Hne].
        -- rewrite lookup_delete_eq. repeat case_decide; try done.
           all: exfalso; naive_solver (set_solver).
        -- rewrite lookup_delete_ne by done.
           repeat case_decide; try done; exfalso; naive_solver (set_solver).
      * apply Z.leb_gt in E.
        destruct (decide (x = dir)) as [->|Hne];
          repeat case_decide; try done; exfalso;
          naive_solver (set_solver || lia).
Qed.

Lemma slotRemoveInvalidUndo_lookup (ix : Z) (d : CacheDir) :
  let d' := slotRemoveInvalidUndo toInt ix d in
  files d' = files d
  ∧ ∀ x, undo d' !! x = if decide (ix ≤ toInt x)%Z then None else undo d !! x.
Proof.
  cbn zeta. unfold slotRemoveInvalidUndo.
  destruct (removeInvalidLoop_spec ix (Qt.qSortStrings (undoEntryList d)) d)
    as [H1 H2].
  split; [done|]. intros x. rewrite H2.
  assert (Hin : x ∈ Qt.qSortStrings (undoEntryList d) ↔ is_Some (undo d !! x)).
  { unfold Qt.qSortStrings, undoEntryList.
    by rewrite merge_sort_Permutation, elem_of_elements, elem_of_dom. }
  repeat case_decide; try done.
  - tauto.
  - destruct (undo d !! x) eqn:E; [|done]. exfalso. naive_solver.
Qed.

(** X3: After [slotRemoveInvalidUndo(ix)] an archive directory is left exactly
    when it was there and its name reads as a number below [ix]; what is left
    keeps its files, and the cache files are not touched. *)
Theorem slotRemoveInvalidUndo_spec (ix : Z) (d : CacheDir) :
  let d' := slotRemoveInvalidUndo toInt ix d in
  files d' = files d
  ∧ ∀ x, undo d' !! x = if decide (ix ≤ toInt x)%Z then None else undo d !! x.
Proof. exact (slotRemoveInvalidUndo_lookup ix d). Qed.

(** X4: Dropping the snapshots from [ix] on and then from [jx] on is dropping
    them from the smaller of the two on; in particular the operation is
    idempotent. *)
Theorem slotRemoveInvalidUndo_twice (ix jx : Z) (d : CacheDir) :
  slotRemoveInvalidUndo toInt jx (slotRemoveInvalidUndo toInt ix d)
  = slotRemoveInvalidUndo toInt (Z.min ix jx) d.
Proof.
  destruct (slotRemoveInvalidUndo_lookup ix d) as [F1 U1].
  destruct (slotRemoveInvalidUndo_lookup jx (slotRemoveInvalidUndo toInt ix d))
    as [F2 U2].
  destruct (slotRemoveInvalidUndo_lookup (Z.min ix jx) d) as [F3 U3].
  apply CacheDir_eq; [congruence|].
  apply map_eq. intros x. rewrite U2, U1, U3.
  repeat case_decide; try done; lia.
Qed.

End RemoveInvalidUndoFacts.
(** ** More on set-up and tear-down *)

(** [QString::split] never returns an empty list. *)
Lemma Qt_split_nonempty (sep : ascii) (s : string) : Qt.split sep s ≠ [].
Proof.
  unfold Qt.split. generalize EmptyString.
  induction s as [|c s IH]; intros cur; cbn; [done|].
  destruct (Ascii.eqb c sep); [done|apply IH].
Qed.

Section LoadParamsFacts.
Variable selectPreviewProfile : KdenliveDoc → KdenliveDoc.

Lemma loadParams_fields (doc : KdenliveDoc) (m : PreviewManager) :
  let doc' := if Qt.isEmpty (getDocumentProperty doc "previewextension")
              then selectPreviewProfile doc else doc in
  let ext := getDocumentProperty doc' "previewextension" in
  let r := loadParams selectPreviewProfile doc m in
  r.2 = doc'
  ∧ r.1.1 = negb (Qt.isEmpty ext)
  ∧ m_extension r.1.2 = ext
  ∧ (r.1.1 = true →
     m_consumerParams r.1.2
     = (Qt.split " " (getDocumentProperty doc' "previewparameters")
        ++ ["an=1"])%list).
Proof.
  cbn zeta. unfold loadParams.
  cbn [m_consumerParams m_extension setConsumerParams setExtension].
  rewrite (bool_decide_eq_false_2 _ (Qt_split_nonempty _ _)). cbn [orb].
  destruct (Qt.isEmpty (getDocumentProperty doc "previewextension")) eqn:E.
  - cbn [m_consumerParams m_extension setConsumerParams setExtension].
    rewrite (bool_decide_eq_false_2 _ (Qt_split_nonempty _ _)). cbn [orb].
    destruct (Qt.isEmpty (getDocumentProperty (selectPreviewProfile doc)
                                              "previewextension")); cbn; done.
  - rewrite E. cbn [m_consumerParams m_extension setConsumerParams setExtension].
    rewrite (bool_decide_eq_false_2 _ (Qt_split_nonempty _ _)), E. cbn. done.
Qed.

(** X5: [loadParams] asks for a preview profile exactly when the document has
    no preview extension, and fails exactly when the extension is still
    empty afterwards; empty preview parameters alone do neither.  On success
    the manager holds that extension and the parameters split at the blanks
    with [an=1] added as last one. *)
Theorem loadParams_spec (doc : KdenliveDoc) (m : PreviewManager) :
  let doc' := if Qt.isEmpty (getDocumentProperty doc "previewextension")
              then selectPreviewProfile doc else doc in
  let ext := getDocumentProperty doc' "previewextension" in
  let r := loadParams selectPreviewProfile doc m in
  r.2 = doc'
  ∧ r.1.1 = negb (Qt.isEmpty ext)
  ∧ m_extension r.1.2 = ext
  ∧ (r.1.1 = true →
     m_consumerParams r.1.2
     = (Qt.split " " (getDocumentProperty doc' "previewparameters")
        ++ ["an=1"])%list).
Proof. exact (loadParams_fields doc m). Qed.

End LoadParamsFacts.

Section InitializeFacts.
Variable toLong : string → Z.
Variable QFile_exists : string → bool.
Variable cacheLocation : string.
Variable mkdirCd : string → string → bool.
Variable dirName : string → string.
Variable haveUndo : string → bool.
Variable selectPreviewProfile : KdenliveDoc → KdenliveDoc.
Variable entryCount : string → nat.

#[local] Abbreviation init :=
  (initialize toLong QFile_exists cacheLocation mkdirCd dirName haveUndo
              selectPreviewProfile).

Lemma initialize_success_fields (doc : KdenliveDoc) (m : PreviewManager) :
  (init doc m).1.1 = true →
  let m' := (init doc m).1.2 in
  let doc' := (init doc m).2 in
  let documentId := getDocumentProperty doc "documentid" in
  Qt.isEmpty documentId = false
  ∧ toLong documentId ≠ 0%Z
  ∧ dirName (m_cacheDir m') = documentId
  ∧ haveUndo (m_cacheDir m') = true
  ∧ m_undoDir m' = Qt.absoluteFilePath (m_cacheDir m') "undo"
  ∧ getDocumentProperty doc' "cachedir" = m_cacheDir m'
  ∧ Qt.isEmpty (m_extension m') = false
  ∧ m_extension m' = getDocumentProperty doc' "previewextension"
  ∧ last (m_consumerParams m') = Some "an=1"
  ∧ m_initialized m' = true
  ∧ m_abortPreview m' = m_abortPreview m
  ∧ m_previewTimer m' = m_previewTimer m
  ∧ m_previewThread m' = m_previewThread m.
Proof.
  unfold initialize.
  destruct (Qt.isEmpty _) eqn:Eid; [done|]. cbn [orb].
  destruct (toLong _ =? 0)%Z eqn:Elong; [done|].
  apply Z.eqb_neq in Elong.
  set (documentId := getDocumentProperty doc "documentid") in *.
  assert (Hgo : ∀ m1 : PreviewManager,
    m_abortPreview m1 = m_abortPreview m →
    m_previewTimer m1 = m_previewTimer m →
    m_previewThread m1 = m_previewThread m →
    let r := (if negb (String.eqb (dirName (m_cacheDir m1)) documentId)
                 || negb (haveUndo (m_cacheDir m1))
              then (false, m1, doc)
              else
                let '(ok, m2, doc2) := loadParams selectPreviewProfile doc m1 in
                if negb ok then (false, m2, doc2)
                else
                  (true,
                   setInitialized true
                     (setUndoDir (Qt.absoluteFilePath (m_cacheDir m2) "undo") m2),
                   setDocumentProperty "cachedir" (m_cacheDir m2) doc2)) in
    r.1.1 = true →
    Qt.isEmpty documentId = false
    ∧ toLong documentId ≠ 0%Z
    ∧ dirName (m_cacheDir r.1.2) = documentId
    ∧ haveUndo (m_cacheDir r.1.2) = true
    ∧ m_undoDir r.1.2 = Qt.absoluteFilePath (m_cacheDir r.1.2) "undo"
    ∧ getDocumentProperty r.2 "cachedir" = m_cacheDir r.1.2
    ∧ Qt.isEmpty (m_extension r.1.2) = false
    ∧ m_extension r.1.2 = getDocumentProperty r.2 "previewextension"
    ∧ last (m_consumerParams r.1.2) = Some "an=1"
    ∧ m_initialized r.1.2 = true
    ∧ m_abortPreview r.1.2 = m_abortPreview m
    ∧ m_previewTimer r.1.2 = m_previewTimer m
    ∧ m_previewThread r.1.2 = m_previewThread m).
  { intros m1 Ha Ht Hth. cbn zeta.
    destruct (String.eqb_spec (dirName (m_cacheDir m1)) documentId) as [Hd|];
      [|done]. cbn [negb orb].
    destruct (haveUndo (m_cacheDir m1)) eqn:Hu; [|done]. cbn [negb].
    destruct (loadParams_fields selectPreviewProfile doc m1)
      as (Hdoc & Hok & Hext & Hpar).
    assert (Hframe :
      m_cacheDir (loadParams selectPreviewProfile doc m1).1.2 = m_cacheDir m1
      ∧ m_abortPreview (loadParams selectPreviewProfile doc m1).1.2
        = m_abortPreview m1
      ∧ m_previewTimer (loadParams selectPreviewProfile doc m1).1.2
        = m_previewTimer m1
      ∧ m_previewThread (loadParams selectPreviewProfile doc m1).1.2
        = m_previewThread m1).
    { unfold loadParams. repeat case_match; simplify_eq; done. }
    destruct Hframe as (Hc & Hab & Htm & Hthr).
    destruct (loadParams selectPreviewProfile doc m1) as [[ok m2] doc2].
    cbn [fst snd] in *. destruct ok; [|done]. cbn [negb fst snd].
    intros _. symmetry in Hok. apply negb_true_iff in Hok.
    cbn. rewrite Hc. split_and!; try done; try congruence.
    - unfold getDocumentProperty, setDocumentProperty. cbn.
      by rewrite lookup_insert_eq.
    - rewrite Hext, <- Hdoc. unfold getDocumentProperty, setDocumentProperty.
      cbn. by rewrite lookup_insert_ne.
    - rewrite (Hpar eq_refl). apply last_snoc. }
  destruct (negb (Qt.isEmpty (getDocumentProperty doc "cachedir"))
            && QFile_exists (getDocumentProperty doc "cachedir")).
  - intros H. split; [done|]. split; [done|].
    exact (proj2 (proj2
             (Hgo (setCacheDir (getDocumentProperty doc "cachedir")
                     (setInitialized true m)) eq_refl eq_refl eq_refl H))).
  - destruct (mkdirCd cacheLocation documentId); [|done].
    intros H. split; [done|]. split; [done|].
    exact (proj2 (proj2
             (Hgo (setCacheDir (Qt.absoluteFilePath cacheLocation documentId)
                     (setCacheDir cacheLocation (setInitialized true m)))
                eq_refl eq_refl eq_refl H))).
Qed.

(** X6: What a successful [initialize] guarantees: the document identifier reads
    as a non-zero number, the cache directory is named after it and has its
    [undo] sub-directory, [m_undoDir] is that sub-directory, the render
    parameters are loaded, and the document records the cache directory.  The
    flags of the timer, the thread and the abort are not touched. *)
Theorem initialize_success (doc : KdenliveDoc) (m : PreviewManager) :
  (init doc m).1.1 = true →
  let m' := (init doc m).1.2 in
  let doc' := (init doc m).2 in
  let documentId := getDocumentProperty doc "documentid" in
  Qt.isEmpty documentId = false
  ∧ toLong documentId ≠ 0%Z
  ∧ dirName (m_cacheDir m') = documentId
  ∧ haveUndo (m_cacheDir m') = true
  ∧ m_undoDir m' = Qt.absoluteFilePath (m_cacheDir m') "undo"
  ∧ getDocumentProperty doc' "cachedir" = m_cacheDir m'
  ∧ Qt.isEmpty (m_extension m') = false
  ∧ m_extension m' = getDocumentProperty doc' "previewextension"
  ∧ last (m_consumerParams m') = Some "an=1"
  ∧ m_initialized m' = true
  ∧ m_abortPreview m' = m_abortPreview m
  ∧ m_previewTimer m' = m_previewTimer m
  ∧ m_previewThread m' = m_previewThread m.
Proof. exact (initialize_success_fields doc m). Qed.

(** X7: Set up, then torn down: after a successful [initialize] of a fresh
    manager the destructor deletes the archive tree of the document's cache
    directory, and the cache directory itself only when it lists no entry;
    it does nothing else. *)
Theorem initialize_then_destructor (doc : KdenliveDoc) :
  (init doc newPreviewManager).1.1 = true →
  let m' := (init doc newPreviewManager).1.2 in
  destructor entryCount m'
  = removedRecursively (Qt.absoluteFilePath (m_cacheDir m') "undo")
    :: (if (entryCount (m_cacheDir m') =? 0)%nat
        then [removedRecursively (m_cacheDir m')] else []).
Proof.
  intros Hok. cbn zeta.
  destruct (initialize_success_fields doc newPreviewManager Hok)
    as (_ & _ & _ & _ & Hu & _ & _ & _ & _ & Hi & _ & _ & Hth).
  unfold destructor. rewrite Hi, Hth, Hu. reflexivity.
Qed.

End InitializeFacts.
(** ** More on the invalidation protocol *)



Lemma invalidatePreviews_fields (stackIx stackMax : Z) (chunks : list Z)
    (w : World) :
  let w' := invalidatePreviews stackIx stackMax chunks w in
  m_previewTimer (mgr w') = m_previewTimer (mgr w)
  ∧ m_previewThread (mgr w') = false
  ∧ modified w' = true
  ∧ launched w' = launched w
  ∧ m_extension (mgr w') = m_extension (mgr w)
  ∧ m_consumerParams (mgr w') = m_consumerParams (mgr w)
  ∧ m_cacheDir (mgr w') = m_cacheDir (mgr w)
  ∧ m_undoDir (mgr w') = m_undoDir (mgr w)
  ∧ m_initialized (mgr w') = m_initialized (mgr w).
Proof.
  destruct w as [[ini ab ex cp cd ud tm th] d md em la].
  unfold invalidatePreviews.
  destruct tm, th;
    cbn [mgr disk emitted m_previewTimer m_previewThread m_extension
         m_cacheDir abortRendering negb setMgr setTimer setAbortPreview emit
         setThread setDisk setModified modified launched];
    (destruct ((stackIx =? stackMax)%Z
               && negb (undoExists (Qt.number (stackIx - 1)) d));
     [ destruct (archiveChunks ex (stackIx - 1) chunks d) as [[] d1]; cbn; done
     | destruct ((stackIx =? stackMax - 1)%Z
                 && negb (undoExists (Qt.number stackMax) d));
       match goal with |- context [restoreChunks ?a ?b ?c ?e ?f] =>
         destruct (restoreChunks a b c e f) as [l d2] end; cbn; done ]).
Qed.

(** X9: What [invalidatePreviews] leaves of the manager: the debounce timer is
    as it was (stopped for the duration, started again if it was active), no
    render is running, the document is marked modified, no renderer was
    started, and the render parameters and directories are unchanged. *)
Theorem invalidatePreviews_manager (stackIx stackMax : Z) (chunks : list Z)
    (w : World) :
  let w' := invalidatePreviews stackIx stackMax chunks w in
  m_previewTimer (mgr w') = m_previewTimer (mgr w)
  ∧ m_previewThread (mgr w') = false
  ∧ modified w' = true
  ∧ launched w' = launched w
  ∧ m_extension (mgr w') = m_extension (mgr w)
  ∧ m_consumerParams (mgr w') = m_consumerParams (mgr w)
  ∧ m_cacheDir (mgr w') = m_cacheDir (mgr w)
  ∧ m_undoDir (mgr w') = m_undoDir (mgr w)
  ∧ m_initialized (mgr w') = m_initialized (mgr w).
Proof. exact (invalidatePreviews_fields stackIx stackMax chunks w). Qed.

(** What the restore step does to the disk and what it reports. *)
Lemma restoreChunks_spec (ext : string) (ix : Z) (lastUndo : bool)
    (chunks : list Z) (d : CacheDir) :
  let r := restoreChunks ext ix lastUndo chunks d in
  let names := (λ i, chunkFileName i ext) <$> chunks in
  let archived := λ n : string, undo d !! Qt.number ix ≫= (.!! n) in
  undo r.2 = undo d
  ∧ (∀ n, files r.2 !! n
          = if decide (n ∈ names)
            then (if lastUndo
                  then match files d !! n with
                       | Some c => Some c
                       | None => archived n
                       end
                  else archived n)
            else files d !! n)
  ∧ Sorted Z.le r.1
  ∧ (∀ i, i ∈ r.1 ↔ i ∈ chunks
                     ∧ (lastUndo = true → files d !! chunkFileName i ext = None)
                     ∧ is_Some (archived (chunkFileName i ext))).
Proof.
  intros r names archived. subst r. unfold restoreChunks.
  pose proof (restoreLoop_undo ext (Qt.number ix) lastUndo
                (undoExists (Qt.number ix) d) chunks [] d) as Hundo.
  unfold undoExists in *.
  assert (Hin : ∀ i, i ∈ chunks → chunkFileName i ext ∈ names).
  { intros i Hi. subst names. apply list_elem_of_fmap. eauto. }
  case_bool_decide as Hex.
  - destruct Hex as [arch Ha].
    assert (Harch : ∀ n, archived n = arch !! n).
    { intros n. exact (f_equal (λ o, o ≫= (.!! n)) Ha). }
    destruct lastUndo.
    + destruct (restoreLoop_keep ext (Qt.number ix) arch chunks [] d Ha)
        as [H1 H2].
      destruct (restoreLoop ext (Qt.number ix) true true chunks [] d)
        as [l d3]. cbn [fst snd] in *. split_and!; [done| |apply qSort_Sorted|].
      * intros n. rewrite H2, Harch. done.
      * intros i. rewrite qSort_elem_of, H1, Harch.
        split; [intros [?|?]; [set_solver|naive_solver]|naive_solver].
    + destruct (restoreLoop_delete ext (Qt.number ix) arch chunks [] d Ha)
        as [H1 H2].
      destruct (restoreLoop ext (Qt.number ix) false true chunks [] d)
        as [l d3]. cbn [fst snd] in *. split_and!; [done| |apply qSort_Sorted|].
      * intros n. rewrite H2, Harch. done.
      * intros i. rewrite qSort_elem_of, H1, Harch. cbn.
        rewrite list_elem_of_filter. naive_solver.
  - assert (Hnone : ∀ n, archived n = None).
    { intros n. apply eq_None_not_Some in Hex.
      exact (f_equal (λ o, o ≫= (.!! n)) Hex). }
    destruct (restoreLoop_nomove ext (Qt.number ix) lastUndo chunks [] d)
      as [H1 H2].
    destruct (restoreLoop ext (Qt.number ix) lastUndo false chunks [] d)
      as [l d3]. cbn [fst snd] in *. subst l.
    split_and!; [done| |apply qSort_Sorted|].
    * intros n. rewrite H2, Hnone.
      destruct lastUndo; repeat case_decide; try done.
      by destruct (files d !! n).
    * intros i. rewrite qSort_elem_of, Hnone. split; [set_solver|].
      intros (_ & _ & [? [=]]).
Qed.

(** An archive made in a directory that was not there holds, for each chunk
    of the list, what the cache held for it, and the cache no longer holds
    it; the other directories are as before. *)
Lemma archiveChunks_lookup (ext : string) (ix : Z) (chunks : list Z)
    (d : CacheDir) :
  undoExists (Qt.number ix) d = false →
  let r := archiveChunks ext ix chunks d in
  let names := (λ i, chunkFileName i ext) <$> chunks in
  (∀ n, files r.2 !! n = if decide (n ∈ names) then None else files d !! n)
  ∧ (∀ n, n ∈ names →
          undo r.2 !! Qt.number ix ≫= (.!! n) = files d !! n)
  ∧ (∀ dir, dir ≠ Qt.number ix → undo r.2 !! dir = undo d !! dir)
  ∧ dom (undo r.2) ⊆ {[ Qt.number ix ]} ∪ dom (undo d).
Proof.
  intros Hfresh r names.
  assert (Hnone : undo d !! Qt.number ix = None).
  { unfold undoExists in Hfresh. apply bool_decide_eq_false in Hfresh.
    by apply eq_None_not_Some. }
  destruct (archiveChunks_fresh ext ix chunks d Hnone)
    as (Hfiles & Hfound & Harch & Hkeep & Hothers).
  fold r names in Hfiles, Hfound, Harch, Hkeep, Hothers.
  split_and!; [done| |done|].
  - intros n Hn. destruct r.1 eqn:Ef.
    + destruct (Harch eq_refl) as (arch & Ha & Hlook).
      rewrite Ha. cbn. rewrite Hlook. by rewrite decide_True.
    + rewrite (Hkeep eq_refl), Hnone. cbn.
      destruct (files d !! n) eqn:E; [|done].
      assert (false = true); [|done]. apply Hfound. exists n. by rewrite E.
  - intros dir Hdir. apply elem_of_dom in Hdir.
    destruct (decide (dir = Qt.number ix)) as [->|Hne]; [set_solver|].
    rewrite Hothers in Hdir by done. apply elem_of_union. right.
    by apply elem_of_dom.
Qed.

Lemma Qt_number_pred_ne (s : Z) : Qt.number (s - 1) ≠ Qt.number s.
Proof. intros E. apply Qt_number_inj in E. lia. Qed.


(** X11: Away from the top of history [invalidatePreviews] emits one signal,
    [reloadChunks], after the abort: it lists, in ascending order, exactly
    the dirty chunks for which the archive of [stackIx] holds a file. *)
Theorem invalidatePreviews_reports_restored (stackIx stackMax : Z)
    (chunks : list Z) (w : World) :
  (stackIx =? stackMax)%Z
  && negb (undoExists (Qt.number (stackIx - 1)) (disk w)) = false →
  let ext := m_extension (mgr w) in
  let w' := invalidatePreviews stackIx stackMax chunks w in
  ∃ l : list Z,
    emitted w' = (emitted (abortRendering w)
                  ++ [reloadChunks (m_cacheDir (mgr w)) l ext])%list
    ∧ Sorted Z.le l
    ∧ ∀ i, i ∈ l ↔ i ∈ chunks
                   ∧ is_Some (undo (disk w) !! Qt.number stackIx
                              ≫= (.!! chunkFileName i ext)).
Proof.
  intros Etop ext w'.
  pose proof (invalidatePreviews_unfold stackIx stackMax chunks w) as E.
  cbn zeta in E. fold ext w' in E. rewrite Etop in E.
  injection E as _ He. rewrite He. eexists. split; [reflexivity|].
  set (names := (λ i, chunkFileName i ext) <$> chunks).
  assert (Hin : ∀ i, i ∈ chunks → chunkFileName i ext ∈ names).
  { intros i Hi. subst names. apply list_elem_of_fmap. eauto. }
  destruct ((stackIx =? stackMax - 1)%Z
            && negb (undoExists (Qt.number stackMax) (disk w))) eqn:Elast.
  - apply andb_true_iff in Elast as [Hix Hfresh].
    apply Z.eqb_eq in Hix. apply negb_true_iff in Hfresh.
    destruct (archiveChunks_lookup ext stackMax chunks (disk w) Hfresh)
      as (Hf & _ & Ho & _).
    destruct (restoreChunks_spec ext stackIx true chunks
                (archiveChunks ext stackMax chunks (disk w)).2)
      as (_ & _ & Hs & Hl).
    assert (Hne : Qt.number stackIx ≠ Qt.number stackMax).
    { subst stackIx. apply Qt_number_pred_ne. }
    split; [done|]. intros i. rewrite Hl, Hf, Ho by done.
    split; [naive_solver|]. intros [Hi Hsome]. split_and!; [done| |done].
    intros _. by rewrite decide_True by auto.
  - destruct (restoreChunks_spec ext stackIx false chunks (disk w))
      as (_ & _ & Hs & Hl).
    split; [done|]. intros i. rewrite Hl. naive_solver.
Qed.



(** ** More on the render runner *)

Section RunnerInvariant.
Variable chunkSize : Z.
Variable rendererpath : string.
Variable proc : nat → Z → ProcessRun.
Variable scene : string.

#[local] Abbreviation iter1 := (iteration chunkSize rendererpath proc scene).
#[local] Abbreviation loop1 := (renderLoop chunkSize rendererpath proc scene).

Lemma sameSettings_refl (m : PreviewManager) : sameSettings m m.
Proof. by repeat split. Qed.

Lemma sameSettings_trans (m1 m2 m3 : PreviewManager) :
  sameSettings m1 m2 → sameSettings m2 m3 → sameSettings m1 m3.
Proof. unfold sameSettings. intros ? ?. destruct_and!. split_and!; congruence. Qed.

Lemma processArgs_sameSettings (i : Z) (m1 m2 : PreviewManager) :
  sameSettings m1 m2 →
  processArgs chunkSize scene i m1 = processArgs chunkSize scene i m2.
Proof.
  unfold sameSettings, processArgs. intros ?. destruct_and!. congruence.
Qed.

#[local] Ltac round_done :=
  first [ apply sameSettings_refl
        | by repeat split
        | done
        | by (eexists; split; [reflexivity|cbn; lia])
        | by (exists []; rewrite app_nil_r; split; [done|cbn; lia])
        | by auto ].

(** What one round can do, whatever the renderer does. *)
Lemma iteration_effects (i : Z) (rest : list Z) (n : nat) (w : World) :
  let name := chunkFileName i (m_extension (mgr w)) in
  let w' := (iter1 i rest n w).2 in
  sameSettings (mgr w') (mgr w)
  ∧ undo (disk w') = undo (disk w)
  ∧ modified w' = modified w
  ∧ (∀ f c, files (disk w) !! f = Some c → files (disk w') !! f = Some c)
  ∧ (∀ f, is_Some (files (disk w') !! f) →
          is_Some (files (disk w) !! f) ∨ f = name)
  ∧ (∃ evs, emitted w' = (emitted w ++ evs)%list ∧ (length evs ≤ 1)%nat)
  ∧ (launched w' = launched w
     ∨ fileExists name (disk w) = false
       ∧ launched w'
         = (launched w
            ++ [(rendererpath, processArgs chunkSize scene i (mgr w))])%list).
Proof.
  intros name w'. subst w'. unfold iteration. fold name.
  unfold fileExists. case_bool_decide as Hex.
  { cbn. split_and!; round_done. }
  assert (Hnone : files (disk w) !! name = None)
    by (by apply eq_None_not_Some).
  destruct (started (proc n i)).
  2:{ cbn. split_and!; round_done. }
  assert (Hkeep : ∀ d' : CacheDir,
    (d' = processWrites name (leftFile (proc n i)) (disk w)
     ∨ d' = removeFile name
              (processWrites name (leftFile (proc n i)) (disk w))) →
    undo d' = undo (disk w)
    ∧ (∀ f c, files (disk w) !! f = Some c → files d' !! f = Some c)
    ∧ (∀ f, is_Some (files d' !! f) → is_Some (files (disk w) !! f) ∨ f = name)).
  { intros d' Hd'. unfold processWrites, removeFile in Hd'.
    destruct (leftFile (proc n i)) as [c0|]; destruct Hd' as [->| ->]; cbn;
      (split_and!; [done| |]); intros f;
      destruct (decide (f = name)) as [->|Hne];
      rewrite ?lookup_delete_eq, ?lookup_insert_eq, ?lookup_delete_ne,
        ?lookup_insert_ne by done; try (intros; congruence); auto.
    all: by intros [? [=]]. }
  destruct (exitStatus (proc n i)).
  - destruct (Hkeep _ (or_introl eq_refl)) as (Hu & Hf & Hn).
    cbn. split_and!; round_done.
  - destruct (Hkeep _ (or_intror eq_refl)) as (Hu & Hf & Hn).
    cbn. destruct (m_abortPreview (mgr w) || abortRequested (proc n i)); cbn;
      split_and!; round_done.
Qed.

(** What the loop can do, whatever the renderers do. *)
Lemma renderLoop_effects (queue : list Z) :
  ∀ (n : nat) (w : World),
  let ext := m_extension (mgr w) in
  let w' := world (loop1 n queue w) in
  sameSettings (mgr w') (mgr w)
  ∧ undo (disk w') = undo (disk w)
  ∧ modified w' = modified w
  ∧ (∀ f c, files (disk w) !! f = Some c → files (disk w') !! f = Some c)
  ∧ (∀ f, is_Some (files (disk w') !! f) →
          is_Some (files (disk w) !! f)
          ∨ ∃ i, i ∈ queue ∧ f = chunkFileName i ext)
  ∧ ∃ evs L,
      emitted w' = (emitted w ++ evs)%list
      ∧ launched w' = (launched w ++ L)%list
      ∧ (length evs ≤ length queue)%nat
      ∧ (length L ≤ length queue)%nat
      ∧ Forall (λ l, ∃ i, i ∈ queue
                          ∧ fileExists (chunkFileName i ext) (disk w) = false
                          ∧ l = (rendererpath,
                                 processArgs chunkSize scene i (mgr w))) L.
Proof.
  induction queue as [|i rest IH]; intros n w; cbn zeta.
  - cbn. split_and!; [apply sameSettings_refl|done|done|auto|auto|].
    exists [], []. rewrite !app_nil_r. split_and!; done.
  - cbn [renderLoop].
    destruct (iteration_effects i rest (S n) w)
      as (Hs & Hu & Hm & Hk & Hn & (evs & He & Hel) & Hl).
    destruct (iter1 i rest (S n) w) as [go w1]. cbn [snd] in *.
    assert (Hx : m_extension (mgr w1) = m_extension (mgr w)) by apply Hs.
    assert (Hhere : ∃ L1,
      launched w1 = (launched w ++ L1)%list ∧ (length L1 ≤ 1)%nat
      ∧ Forall (λ l, ∃ j, j ∈ i :: rest
                  ∧ fileExists (chunkFileName j (m_extension (mgr w))) (disk w)
                    = false
                  ∧ l = (rendererpath, processArgs chunkSize scene j (mgr w)))
               L1).
    { destruct Hl as [Hl|[Hex Hl]].
      - exists []. rewrite app_nil_r. split_and!; [done|cbn; lia|constructor].
      - eexists. split_and!; [exact Hl|cbn; lia|].
        repeat constructor. exists i. split_and!; [set_solver|done|done]. }
    destruct Hhere as (L1 & HL1 & HL1l & HL1f).
    destruct go; cbn [world].
    + destruct (IH (S n) w1) as (Hs' & Hu' & Hm' & Hk' & Hn' & evs' & L' &
                                  He' & Hl' & Hel' & Hll' & Hf').
      split_and!.
      * by eapply sameSettings_trans.
      * congruence.
      * congruence.
      * auto.
      * intros f Hf. destruct (Hn' f Hf) as [Hf1|(j & Hj & ->)].
        -- destruct (Hn f Hf1) as [?| ->]; [by left|].
           right. exists i. split; [set_solver|done].
        -- right. exists j. rewrite Hx. split; [set_solver|done].
      * exists (evs ++ evs')%list, (L1 ++ L')%list.
        rewrite He', Hl', He, HL1, <- !app_assoc, !length_app.
        split_and!; [done|done|cbn; lia|cbn; lia|].
        apply Forall_app. split; [done|].
        eapply Forall_impl; [exact Hf'|]. cbn.
        intros l (j & Hj & Hex & ->). exists j. split_and!; [set_solver| |].
        -- rewrite Hx in Hex. unfold fileExists in *.
           apply bool_decide_eq_false in Hex. apply bool_decide_eq_false.
           intros [c Hc]. apply Hex. exists c. by apply Hk.
        -- f_equal. by apply processArgs_sameSettings.
    + split_and!; [done|done|done|done| |].
      * intros f Hf. destruct (Hn f Hf) as [?| ->]; [by left|].
        right. exists i. split; [set_solver|done].
      * exists evs, L1. split_and!; [done|done|cbn; lia|cbn; lia|done].
Qed.

End RunnerInvariant.

Section RunnerMore.
Variable chunkSize : Z.
Variable rendererpath : string.
Variable proc : nat → Z → ProcessRun.

#[local] Abbreviation render := (doPreviewRender chunkSize rendererpath proc).

Lemma doPreviewRender_effects (scene : string) (queue : list Z) (w : World) :
  let ext := m_extension (mgr w) in
  let scenePath := Qt.absoluteFilePath (m_cacheDir (mgr w)) scene in
  let w' := render scene queue w in
  sameSettings (mgr w') (mgr w)
  ∧ m_abortPreview (mgr w') = false
  ∧ undo (disk w') = undo (disk w)
  ∧ modified w' = modified w
  ∧ files (disk w') !! scene = None
  ∧ (∀ f c, f ≠ scene → files (disk w) !! f = Some c →
            files (disk w') !! f = Some c)
  ∧ (∀ f, is_Some (files (disk w') !! f) →
          is_Some (files (disk w) !! f)
          ∨ ∃ i, i ∈ queue ∧ f = chunkFileName i ext)
  ∧ ∃ evs L,
      emitted w' = (emitted w ++ previewRender 0 "" 0 :: evs)%list
      ∧ launched w' = (launched w ++ L)%list
      ∧ (length evs ≤ length queue)%nat
      ∧ (length L ≤ length queue)%nat
      ∧ Forall (λ l, ∃ i, i ∈ queue
                          ∧ fileExists (chunkFileName i ext) (disk w) = false
                          ∧ l = (rendererpath,
                                 processArgs chunkSize scenePath i (mgr w))) L.
Proof.
  intros ext scenePath w'. subst w'. unfold doPreviewRender.
  set (w1 := emit (previewRender 0 "" 0) w).
  change (m_cacheDir (mgr w1)) with (m_cacheDir (mgr w)). fold scenePath.
  destruct (renderLoop_effects chunkSize rendererpath proc scenePath
              (Qt.qSort queue) 0 w1)
    as (Hs & Hu & Hm & Hk & Hn & evs & L & He & Hl & Hel & Hll & Hf).
  assert (Hlen : length (Qt.qSort queue) = length queue).
  { unfold Qt.qSort. by rewrite merge_sort_Permutation. }
  set (st := renderLoop chunkSize rendererpath proc scenePath 0
               (Qt.qSort queue) w1) in *.
  cbn. split_and!; [exact Hs|done|done|done|apply lookup_delete_eq|..].
  - intros f c Hne Hc. rewrite lookup_delete_ne by done. by apply Hk.
  - intros f Hf'. destruct (decide (f = scene)) as [->|Hne].
    + rewrite lookup_delete_eq in Hf'. by destruct Hf'.
    + rewrite lookup_delete_ne in Hf' by done.
      destruct (Hn f Hf') as [?|(i & Hi & ->)]; [by left|].
      right. exists i. split; [by apply qSort_elem_of|done].
  - exists evs, L. rewrite He, Hl. cbn. rewrite <- app_assoc.
    split_and!; [done|done|lia|lia|].
    eapply Forall_impl; [exact Hf|]. cbn.
    intros l (i & Hi & Hex & ->). exists i.
    split_and!; [by apply qSort_elem_of|done|done].
Qed.

(** X14: The runner and what is already rendered: whatever the renderers do, a
    batch leaves every file the cache held (the scratch scene apart) in place
    with its content, removes the scratch scene, does not touch the archive,
    and leaves [m_abortPreview] cleared and the other fields of the manager
    as they were. *)
Theorem doPreviewRender_keeps_rendered (scene : string) (queue : list Z)
    (w : World) :
  let w' := render scene queue w in
  (∀ f c, f ≠ scene → files (disk w) !! f = Some c →
          files (disk w') !! f = Some c)
  ∧ files (disk w') !! scene = None
  ∧ undo (disk w') = undo (disk w)
  ∧ m_abortPreview (mgr w') = false
  ∧ m_extension (mgr w') = m_extension (mgr w)
  ∧ m_consumerParams (mgr w') = m_consumerParams (mgr w)
  ∧ m_cacheDir (mgr w') = m_cacheDir (mgr w)
  ∧ m_previewTimer (mgr w') = m_previewTimer (mgr w).
Proof.
  destruct (doPreviewRender_effects scene queue w)
    as ((_ & Hx & Hp & Hc & _ & Ht & _) & Ha & Hu & _ & Hsc & Hk & _).
  cbn zeta. split_and!; done.
Qed.

(** X15: The runner makes no file but the cache files of the chunks of its
    queue. *)
Theorem doPreviewRender_new_files (scene : string) (queue : list Z)
    (w : World) (f : string) :
  is_Some (files (disk (render scene queue w)) !! f) →
  is_Some (files (disk w) !! f)
  ∨ ∃ i, i ∈ queue ∧ f = chunkFileName i (m_extension (mgr w)).
Proof.
  destruct (doPreviewRender_effects scene queue w)
    as (_ & _ & _ & _ & _ & _ & Hn & _).
  apply Hn.
Qed.


(** When every chunk of the queue is cached or rendered without incident,
    the loop runs to the end of the queue, reports each chunk complete in the
    order of the queue, and leaves a cache file for each. *)
Lemma renderLoop_completes (scenePath : string) (queue : list Z) :
  ∀ (n : nat) (w : World),
  let ext := m_extension (mgr w) in
  (∀ i, i ∈ queue → fileExists (chunkFileName i ext) (disk w) = true
                    ∨ ∀ k, goodRun (proc k i)) →
  let st := renderLoop chunkSize rendererpath proc scenePath n queue w in
  chunks st = []
  ∧ (∀ i, i ∈ queue →
          is_Some (files (disk (world st)) !! chunkFileName i ext))
  ∧ ∃ evs, emitted (world st) = (emitted w ++ evs)%list
      ∧ omap renderedChunk evs = queue
      ∧ (queue ≠ [] → ∃ j p, last evs = Some (previewRender j p 1000)).
Proof.
  induction queue as [|i rest IH]; intros n w ext Hok; cbn zeta.
  - cbn. split_and!; [done|set_solver|]. exists []. by rewrite app_nil_r.
  - cbn [renderLoop].
    pose proof (iteration_effects chunkSize rendererpath proc scenePath
                  i rest (S n) w) as (Hs & _ & _ & Hk & _).
    set (name := chunkFileName i ext).
    set (path := Qt.absoluteFilePath (m_cacheDir (mgr w)) name).
    assert (Hit : ∃ w1 progress,
      iteration chunkSize rendererpath proc scenePath i rest (S n) w
        = (true, w1)
      ∧ emitted w1 = (emitted w ++ [previewRender i path progress])%list
      ∧ (rest = [] → progress = 1000%Z)
      ∧ is_Some (files (disk w1) !! name)).
    { unfold iteration. fold ext name path. unfold fileExists.
      case_bool_decide as Hex.
      - eexists _, _. split_and!; [reflexivity|reflexivity| |done].
        by intros ->.
      - destruct (Hok i) as [Hc|Hg]; [set_solver| |].
        + unfold fileExists in Hc. by apply bool_decide_eq_true in Hc.
        + destruct (Hg (S n)) as (-> & -> & [c ->]).
          eexists _, _. split_and!; [reflexivity|reflexivity|by intros ->|].
          cbn. rewrite lookup_insert_eq. by eexists. }
    destruct Hit as (w1 & progress & Hit & He1 & Hp & Hf1).
    rewrite Hit in Hk |- *. cbn [snd] in *.
    rewrite Hit in Hs. cbn [snd] in Hs.
    assert (Hx : m_extension (mgr w1) = ext) by apply Hs.
    destruct (IH (S n) w1) as (Hq & Hall & evs & He & Hev & Hlast).
    { cbn zeta. rewrite Hx. intros j Hj.
      destruct (Hok j) as [Hc|Hg]; [set_solver| |by right].
      left. unfold fileExists in *. apply bool_decide_eq_true in Hc as [c Hc].
      apply bool_decide_eq_true. exists c. by apply Hk. }
    rewrite Hx in Hall.
    pose proof (renderLoop_effects chunkSize rendererpath proc scenePath
                  rest (S n) w1) as (_ & _ & _ & Hk' & _).
    split_and!; [done| |].
    + intros j Hj. apply elem_of_cons in Hj as [->|Hj]; [|by apply Hall].
      destruct Hf1 as [c Hc]. exists c. by apply Hk'.
    + exists (previewRender i path progress :: evs).
      rewrite He, He1, <- app_assoc. split_and!; [done| |].
      * cbn. unfold path. rewrite absoluteFilePath_nonempty. by rewrite Hev.
      * intros _. destruct rest as [|i' rest'].
        -- cbn in He. apply (f_equal length) in He.
           rewrite length_app in He. destruct evs; [|cbn in He; lia].
           exists i, path. by rewrite Hp.
        -- destruct Hlast as (j & p & Hla); [done|].
           exists j, p. destruct evs; [done|]. done.
Qed.

(** X17: A batch in which every chunk is cached or rendered without incident:
    each chunk of the queue is reported complete, in ascending order, the
    last event carries progress 1000, and afterwards every chunk has its
    cache file. *)
Theorem doPreviewRender_complete (scene : string) (queue : list Z)
    (w : World) :
  let ext := m_extension (mgr w) in
  (∀ i, i ∈ queue → fileExists (chunkFileName i ext) (disk w) = true
                    ∨ ∀ k, goodRun (proc k i)) →
  let w' := render scene queue w in
  (∀ i, i ∈ queue → chunkFileName i ext ≠ scene →
        is_Some (files (disk w') !! chunkFileName i ext))
  ∧ ∃ evs, emitted w' = (emitted w ++ previewRender 0 "" 0 :: evs)%list
      ∧ omap renderedChunk evs = Qt.qSort queue
      ∧ (queue ≠ [] → ∃ j p, last evs = Some (previewRender j p 1000)).
Proof.
  intros ext Hok w'. subst w'. unfold doPreviewRender.
  set (w1 := emit (previewRender 0 "" 0) w).
  destruct (renderLoop_completes
              (Qt.absoluteFilePath (m_cacheDir (mgr w1)) scene)
              (Qt.qSort queue) 0 w1) as (_ & Hall & evs & He & Hev & Hlast).
  { intros i Hi. apply Hok. by apply qSort_elem_of. }
  set (st := renderLoop chunkSize rendererpath proc
               (Qt.absoluteFilePath (m_cacheDir (mgr w1)) scene) 0
               (Qt.qSort queue) w1) in *.
  cbn. split.
  - intros i Hi Hne. rewrite lookup_delete_ne by done.
    apply Hall. by apply qSort_elem_of.
  - exists evs. rewrite He. cbn. rewrite <- app_assoc.
    split_and!; [done|done|].
    intros Hq. apply Hlast. intros E. apply Hq.
    apply length_zero_iff_nil. apply (f_equal length) in E.
    unfold Qt.qSort in E. by rewrite merge_sort_Permutation in E.
Qed.

(** X18: A batch over chunks that all have their cache file starts no renderer
    and changes nothing on disk but for the scratch scene it removes. *)
Theorem doPreviewRender_all_cached (scene : string) (queue : list Z)
    (w : World) :
  (∀ i, i ∈ queue →
        fileExists (chunkFileName i (m_extension (mgr w))) (disk w) = true) →
  let w' := render scene queue w in
  launched w' = launched w
  ∧ files (disk w') = delete scene (files (disk w))
  ∧ undo (disk w') = undo (disk w).
Proof.
  intros Hc.
  destruct (doPreviewRender_effects scene queue w)
    as (_ & _ & Hu & _ & Hsc & Hk & Hn & evs & L & _ & Hl & _ & _ & Hf).
  cbn zeta. split_and!; [|apply map_eq|done].
  - destruct L as [|l L]; [by rewrite Hl, app_nil_r|].
    apply Forall_cons_1 in Hf as [(i & Hi & Hex & _) _].
    rewrite Hc in Hex by done. done.
  - intros f. destruct (decide (f = scene)) as [->|Hne].
    + by rewrite lookup_delete_eq.
    + rewrite lookup_delete_ne by done.
      destruct (files (disk w) !! f) as [c|] eqn:E; [by apply Hk|].
      apply eq_None_not_Some. intros Hs.
      destruct (Hn f Hs) as [[? ?]|(i & Hi & ->)]; [congruence|].
      specialize (Hc i Hi). unfold fileExists in Hc.
      apply bool_decide_eq_true in Hc as [? ?]. congruence.
Qed.

End RunnerMore.
(** ** The zone marked for preview *)

Lemma seqZ_StronglySorted (m n : Z) : StronglySorted Z.lt (seqZ m n).
Proof.
  destruct (decide (n ≤ 0)%Z) as [Hn|Hn]; [rewrite seqZ_nil by done; constructor|].
  rewrite <- (Z2Nat.id n) by lia. generalize (Z.to_nat n) as k. clear.
  intros k. revert m. induction k as [|k IH]; intros m.
  - rewrite seqZ_nil by lia. constructor.
  - rewrite seqZ_cons by lia.
    replace (Z.pred (Z.of_nat (S k))) with (Z.of_nat k) by lia.
    constructor; [apply IH|].
    apply Forall_forall. intros x Hx. apply elem_of_seqZ in Hx. lia.
Qed.

(** X19: For a zone [x .. y] of non-negative frames and a positive chunk size,
    the chunks marked start at multiples of the chunk size, in strictly
    ascending order, none after [y] and none a whole chunk before [x], and
    every frame of the zone lies in one of them. *)
Theorem zoneFrames_cover (x y chunkSize : Z) :
  (0 ≤ x)%Z → (x ≤ y)%Z → (0 < chunkSize)%Z →
  ∃ frames, zoneFrames x y chunkSize = Some frames
    ∧ StronglySorted Z.lt frames
    ∧ (∀ c, c ∈ frames →
            (∃ k, c = k * chunkSize)%Z ∧ (x - chunkSize < c ≤ y)%Z)
    ∧ (∀ f, (x ≤ f ≤ y)%Z → ∃ c, c ∈ frames ∧ (c ≤ f < c + chunkSize)%Z).
Proof.
  intros Hx Hxy Hcs. unfold zoneFrames, intDiv.
  rewrite (proj2 (Z.eqb_neq _ _)) by lia. cbn.
  rewrite !Z.quot_div_nonneg by lia.
  eexists. split; [reflexivity|]. unfold chunkFrames.
  assert (Hmem : ∀ c, c ∈ (λ i, i * chunkSize)%Z
                        <$> seqZ (x `div` chunkSize)
                              (y `div` chunkSize - x `div` chunkSize + 1)
                  ↔ ∃ k, c = (k * chunkSize)%Z
                         ∧ (x `div` chunkSize ≤ k ≤ y `div` chunkSize)%Z).
  { intros c. rewrite list_elem_of_fmap. split.
    - intros (k & -> & Hk). apply elem_of_seqZ in Hk. exists k. lia.
    - intros (k & -> & Hk). exists k. split; [done|].
      apply elem_of_seqZ. lia. }
  split_and!.
  - eapply StronglySorted_fmap; [|apply seqZ_StronglySorted].
    cbn. intros a b Hab. nia.
  - intros c Hc. apply Hmem in Hc as (k & -> & Hk). split; [eauto|].
    pose proof (Z.mul_div_le x chunkSize Hcs).
    pose proof (Z.mul_div_le y chunkSize Hcs).
    pose proof (Z.mod_pos_bound x chunkSize Hcs).
    pose proof (Z.div_mod x chunkSize ltac:(lia)). nia.
  - intros f Hf. exists (f `div` chunkSize * chunkSize)%Z. split.
    + apply Hmem. exists (f `div` chunkSize)%Z. split; [done|].
      split; apply Z.div_le_mono; lia.
    + pose proof (Z.mod_pos_bound f chunkSize Hcs).
      pose proof (Z.div_mod f chunkSize ltac:(lia)). nia.
Qed.

(** X20: Edge cases of the zone: a chunk size of zero makes the division
    undefined; a zone that ends in an earlier chunk than it starts marks
    nothing. *)
Theorem zoneFrames_edges (x y chunkSize : Z) :
  zoneFrames x y 0 = None
  ∧ ((0 < chunkSize)%Z → (Z.quot y chunkSize < Z.quot x chunkSize)%Z →
     zoneFrames x y chunkSize = Some []).
Proof.
  split; [done|]. intros Hcs Hlt. unfold zoneFrames, intDiv.
  rewrite (proj2 (Z.eqb_neq _ _)) by lia. cbn. unfold chunkFrames.
  by rewrite seqZ_nil by lia.
Qed.

Lemma removeChunks_spec (ext : string) (toProcess : list Z) :
  ∀ d : CacheDir,
  undo (removeChunks ext toProcess d) = undo d
  ∧ ∀ n, files (removeChunks ext toProcess d) !! n
         = if decide (n ∈ (λ i, chunkFileName i ext) <$> toProcess)
           then None else files d !! n.
Proof.
  induction toProcess as [|i rest IH]; intros d.
  - split; [done|]. intros n. cbn. case_decide as H; [|done].
    by apply elem_of_nil in H.
  - cbn [removeChunks fmap list_fmap].
    destruct (IH (removeFile (chunkFileName i ext) d)) as [Hu Hf].
    split; [done|]. intros n. rewrite Hf. cbn.
    destruct (decide (n = chunkFileName i ext)) as [->|Hne].
    + rewrite lookup_delete_eq. repeat case_decide; try done; set_solver.
    + rewrite lookup_delete_ne by done.
      repeat case_decide; try done; set_solver.
Qed.

Section RulerFacts.
Variable Ruler : Type.
Variable addChunks : Ruler → list Z → bool → list Z * Ruler.
Variable hasPreviewRange : Ruler → bool.
Variable getDirtyChunks : Ruler → list Z.

(** X21: [addPreviewRange] for a non-zero chunk size: the ruler is told the
    chunks of the zone; with [add] nothing on disk changes and the debounce
    timer is started when auto-preview is on and the ruler reports chunks to
    process; without [add] the cache files of the reported chunks, and no
    others, are removed and the timer is left alone.  The archive is never
    touched. *)
Theorem addPreviewRange_spec (zone : Z * Z) (chunkSize : Z)
    (autopreview add : bool) (r : Ruler) (w : World) :
  chunkSize ≠ 0%Z →
  ∃ frames w',
    zoneFrames zone.1 zone.2 chunkSize = Some frames
    ∧ let toProcess := (addChunks r frames add).1 in
      addPreviewRange Ruler addChunks zone chunkSize autopreview add r w
      = Some (w', (addChunks r frames add).2)
      ∧ undo (disk w') = undo (disk w)
      ∧ (∀ n, files (disk w') !! n
              = if decide (add = false
                           ∧ n ∈ (λ i, chunkFileName i (m_extension (mgr w)))
                                 <$> toProcess)
                then None else files (disk w) !! n)
      ∧ m_previewTimer (mgr w')
        = (m_previewTimer (mgr w)
           || (add && autopreview && negb (bool_decide (toProcess = []))))
      ∧ emitted w' = emitted w
      ∧ m_previewThread (mgr w') = m_previewThread (mgr w).
Proof.
  clear hasPreviewRange getDirtyChunks.
  intros Hcs.
  destruct (zoneFrames zone.1 zone.2 chunkSize) as [frames|] eqn:Ez.
  2:{ unfold zoneFrames, intDiv in Ez.
      rewrite (proj2 (Z.eqb_neq _ _)) in Ez by done. done. }
  exists frames. unfold addPreviewRange. rewrite Ez. cbn.
  destruct (addChunks r frames add) as [toProcess r'].
  cbn [fst snd]. case_bool_decide as Hemp.
  - subst toProcess. exists w. split; [done|].
    split_and!; try done.
    + intros n. case_decide as H; [|done]. destruct H as [_ H].
      by apply elem_of_nil in H.
    + by rewrite !andb_false_r, orb_false_r.
  - destruct add.
    + eexists. split; [done|]. split; [reflexivity|].
      destruct autopreview; cbn; (split_and!; try done);
        try (intros n; case_decide as H; [by destruct H|done]);
        by rewrite ?orb_true_r, ?orb_false_r.
    + destruct (removeChunks_spec (m_extension (mgr w)) toProcess (disk w))
        as [Hu Hf].
      eexists. split; [done|]. split; [reflexivity|].
      cbn. split_and!; try done.
      * intros n. rewrite Hf. repeat case_decide; try done; naive_solver.
      * by rewrite orb_false_r.
Qed.



End RulerFacts.

(** ** The display range of a dirty-chunk notification *)

Lemma Qt_last_Some_elem {A} (l : list A) (b : A) :
  Qt.last l = Some b → last l = Some b.
Proof.
  unfold Qt.last. induction l as [|a [|a' l] IH]; cbn; [done|done|].
  intros H. apply IH in H. done.
Qed.

(** X24: A notification with dirty chunks in ascending order: the range handed to
    the ruler's display runs from the first to the last dirty chunk and so
    spans them all, the disk is as [invalidatePreviews] leaves it, and the
    debounce timer runs afterwards when auto-preview is on or it ran
    before. *)
Theorem slotProcessDirtyChunks_range (chunks : list Z) (stackIx stackMax : Z)
    (autopreview : bool) (w w' : World) (a b : Z) :
  Sorted Z.le chunks →
  slotProcessDirtyChunks chunks stackIx stackMax autopreview w
    = Some (w', (a, b)) →
  (∀ i, i ∈ chunks → (a ≤ i ≤ b)%Z)
  ∧ a ∈ chunks ∧ b ∈ chunks
  ∧ disk w' = disk (invalidatePreviews stackIx stackMax chunks w)
  ∧ emitted w' = emitted (invalidatePreviews stackIx stackMax chunks w)
  ∧ m_previewTimer (mgr w') = (autopreview || m_previewTimer (mgr w)).
Proof.
  intros Hs. unfold slotProcessDirtyChunks.
  destruct (Qt.first chunks) as [a0|] eqn:Ea; [|done].
  destruct (Qt.last chunks) as [b0|] eqn:Eb; [|done].
  intros [= <- <- <-].
  apply Qt_last_Some_elem in Eb.
  destruct (invalidatePreviews_fields stackIx stackMax chunks w)
    as (Ht & _).
  split_and!.
  - apply Sorted_StronglySorted in Hs; [|apply _].
    intros i Hi. split.
    + destruct chunks as [|c l]; [done|]. cbn in Ea. injection Ea as ->.
      apply StronglySorted_inv in Hs as [_ Hall].
      apply elem_of_cons in Hi as [->|Hi]; [lia|].
      by eapply Forall_forall in Hall.
    + apply last_Some in Eb as [l' ->].
      apply elem_of_app in Hi as [Hi|Hi].
      * eapply (StronglySorted_app_1_elem_of Z.le l' [b0]); [done|done|].
        set_solver.
      * apply list_elem_of_singleton in Hi as ->. lia.
  - destruct chunks; [done|]. cbn in Ea. injection Ea as ->. set_solver.
  - by eapply last_Some_elem_of.
  - by destruct autopreview.
  - by destruct autopreview.
  - destruct autopreview; cbn; [done|]. by rewrite Ht.
Qed.

(** ** The track view *)

Section ParseFacts.
Variable duration : TrackView.DocumentTrack → Z.

Lemma parseLoop_spec (tracks : list TrackView.QDomElement) :
  ∀ (i : nat) (v : TrackView.View),
  (i ≤ length (TrackView.documentTracks v))%nat →
  let v' := TrackView.parseLoop duration (Z.of_nat i) tracks v in
  TrackView.documentTracks v'
  = (take i (TrackView.documentTracks v) ++ (TrackView.trackOf <$> tracks)
     ++ drop i (TrackView.documentTracks v))%list
  ∧ TrackView.m_projectDuration v'
    = foldl Z.max (TrackView.m_projectDuration v)
            (duration <$> (TrackView.trackOf <$> tracks)).
Proof.
  induction tracks as [|e rest IH]; intros i v Hi; cbn zeta.
  - cbn. by rewrite take_drop.
  - cbn [TrackView.parseLoop].
    replace (Z.of_nat i + 1)%Z with (Z.of_nat (S i)) by lia.
    set (v1 := TrackView.parseTrack duration (Z.of_nat i) e v).
    assert (H1 : TrackView.documentTracks v1
                 = (take i (TrackView.documentTracks v)
                    ++ TrackView.trackOf e
                    :: drop i (TrackView.documentTracks v))%list
                 ∧ TrackView.m_projectDuration v1
                   = Z.max (TrackView.m_projectDuration v)
                           (duration (TrackView.trackOf e))).
    { subst v1. unfold TrackView.parseTrack, TrackView.trackOf,
        TrackView.slotAddAudioTrack, TrackView.slotAddVideoTrack,
        TrackView.QList_insert.
      rewrite Nat2Z.id.
      destruct (String.eqb _ _); cbn;
        case_match; cbn; (split; [done|]);
        match goal with H : (_ <? _)%Z = _ |- _ =>
          first [apply Z.ltb_lt in H | apply Z.ltb_ge in H] end; lia. }
    destruct H1 as [Ht Hd].
    destruct (IH (S i) v1) as [Ht' Hd'].
    { rewrite Ht, length_app, length_take. cbn. lia. }
    split.
    + rewrite Ht', Ht. cbn [fmap list_fmap].
      rewrite (cons_middle (TrackView.trackOf e)), (app_assoc (take i _)).
      rewrite take_app_length', drop_app_length'
        by (rewrite length_app, length_take; cbn; lia).
      by rewrite <- !app_assoc.
    + rewrite Hd', Hd. done.
Qed.

(** X25: [parseDocument] puts one track per playlist in front of the tracks the
    view already has, in document order, audio where the playlist hides its
    video; the project duration is 300 or the longest duration among the
    tracks just added, whichever is greater, whatever it was before. *)
Theorem parseDocument_spec (tracks : list TrackView.QDomElement)
    (v : TrackView.View) :
  let v' := TrackView.parseDocument duration tracks v in
  let added := TrackView.trackOf <$> tracks in
  TrackView.documentTracks v' = (added ++ TrackView.documentTracks v)%list
  ∧ (300 ≤ TrackView.m_projectDuration v')%Z
  ∧ (∀ t, t ∈ added → (duration t ≤ TrackView.m_projectDuration v')%Z)
  ∧ (TrackView.m_projectDuration v' = 300%Z
     ∨ ∃ t, t ∈ added ∧ TrackView.m_projectDuration v' = duration t).
Proof.
  cbn zeta. unfold TrackView.parseDocument.
  destruct (parseLoop_spec tracks 0
              (TrackView.mkView 300 (TrackView.documentTracks v)))
    as [Ht Hd]; [cbn; lia|].
  cbn in Ht, Hd. rewrite drop_0 in Ht.
  change (Z.of_nat 0) with 0%Z in *.
  rewrite Ht, Hd. clear Ht Hd. split; [done|].
  generalize (TrackView.trackOf <$> tracks) as l. clear tracks.
  assert (Hfold : ∀ (l : list TrackView.DocumentTrack) (a : Z),
    (a ≤ foldl Z.max a (duration <$> l))%Z
    ∧ (∀ t, t ∈ l → (duration t ≤ foldl Z.max a (duration <$> l))%Z)
    ∧ (foldl Z.max a (duration <$> l) = a
       ∨ ∃ t, t ∈ l ∧ foldl Z.max a (duration <$> l) = duration t)).
  { induction l as [|t l IH]; intros a; cbn.
    - split; [lia|]. split; [set_solver|by left].
    - destruct (IH (Z.max a (duration t))) as (H1 & H2 & H3).
      split; [lia|]. split.
      + intros t' Ht'. apply elem_of_cons in Ht' as [->|Ht']; [lia|auto].
      + destruct H3 as [H3|(t' & Ht' & H3)].
        * destruct (Z.max_spec a (duration t)) as [[_ E]|[_ E]];
            rewrite H3, E; [right; exists t; split; [left|done]|by left].
        * right. exists t'. split; [by right|done]. }
  intros l. destruct (Hfold l 300%Z) as (H1 & H2 & H3). done.
Qed.

End ParseFacts.

(** ** The theorems at concrete inputs *)

Lemma initialize_success_witness :
  let r := initializeFresh savedDoc newPreviewManager in
  r.1.1 = true
  ∧ lastComponent (m_cacheDir r.1.2) = "1461234567"
  ∧ m_undoDir r.1.2 = Qt.absoluteFilePath (m_cacheDir r.1.2) "undo"
  ∧ getDocumentProperty r.2 "cachedir" = m_cacheDir r.1.2
  ∧ last (m_consumerParams r.1.2) = Some "an=1"
  ∧ m_initialized r.1.2 = true.
Proof.
  assert (H : (initializeFresh savedDoc newPreviewManager).1.1 = true)
    by (vm_compute; reflexivity).
  destruct (initialize_success decimalValue (λ _, false) "/cache"
              (λ _ _, true) lastComponent (λ _, true) id savedDoc
              newPreviewManager H)
    as (_ & _ & Hd & _ & Hu & Hc & _ & _ & Hl & Hi & _).
  cbn zeta. split_and!; [exact H|exact Hd|exact Hu|exact Hc|exact Hl|exact Hi].
Defined.

Lemma initialize_then_destructor_witness :
  let r := initializeFresh savedDoc newPreviewManager in
  r.1.1 = true
  ∧ destructor (λ _, 0%nat) r.1.2
    = [removedRecursively "/cache/1461234567/undo";
       removedRecursively "/cache/1461234567"].
Proof.
  assert (H : (initializeFresh savedDoc newPreviewManager).1.1 = true)
    by (vm_compute; reflexivity).
  split; [exact H|].
  exact (initialize_then_destructor decimalValue (λ _, false) "/cache"
           (λ _ _, true) lastComponent (λ _, true) id (λ _, 0%nat) savedDoc H).
Defined.

Lemma invalidatePreviews_reports_restored_witness :
  let w := worldOf archiveAtThree in
  let w' := invalidatePreviews 3 4 [0; 25]%Z w in
  (3 =? 4)%Z && negb (undoExists (Qt.number (3 - 1)) (disk w)) = false
  ∧ ∃ l : list Z,
      emitted w' = (emitted (abortRendering w)
                    ++ [reloadChunks (m_cacheDir (mgr w)) l
                                     (m_extension (mgr w))])%list
      ∧ Sorted Z.le l
      ∧ ∀ i, i ∈ l ↔ i ∈ [0; 25]%Z
                     ∧ is_Some (undo (disk w) !! Qt.number 3
                                ≫= (.!! chunkFileName i (m_extension (mgr w)))).
Proof.
  split; [reflexivity|].
  apply (invalidatePreviews_reports_restored 3 4 [0; 25]%Z
           (worldOf archiveAtThree)).
  reflexivity.
Defined.



Lemma doPreviewRender_new_files_witness :
  let w := worldOf sceneOnly in
  is_Some (files (disk (doPreviewRender 25 "melt" goodRenderer "preview.mlt"
                          [25; 0]%Z w)) !! "25.mp4")
  ∧ (is_Some (files (disk w) !! "25.mp4")
     ∨ ∃ i, i ∈ [25; 0]%Z ∧ "25.mp4" = chunkFileName i (m_extension (mgr w))).
Proof.
  assert (H : is_Some (files (disk (doPreviewRender 25 "melt" goodRenderer
                                      "preview.mlt" [25; 0]%Z
                                      (worldOf sceneOnly))) !! "25.mp4"))
    by (exists "video"; vm_compute; reflexivity).
  split; [exact H|].
  exact (doPreviewRender_new_files 25 "melt" goodRenderer "preview.mlt"
           [25; 0]%Z (worldOf sceneOnly) "25.mp4" H).
Defined.

Lemma doPreviewRender_complete_witness :
  let w := worldOf sceneOnly in
  let w' := doPreviewRender 25 "melt" goodRenderer "preview.mlt" [25; 0]%Z w in
  (∀ i, i ∈ [25; 0]%Z → fileExists (chunkFileName i "mp4") (disk w) = true
                          ∨ ∀ k, goodRun (goodRenderer k i))
  ∧ (∀ i, i ∈ [25; 0]%Z → chunkFileName i "mp4" ≠ "preview.mlt" →
          is_Some (files (disk w') !! chunkFileName i "mp4"))
  ∧ ∃ evs, emitted w' = (emitted w ++ previewRender 0 "" 0 :: evs)%list
      ∧ omap renderedChunk evs = Qt.qSort [25; 0]%Z
      ∧ ([25; 0]%Z ≠ [] → ∃ j p, last evs = Some (previewRender j p 1000)).
Proof.
  assert (H : ∀ i, i ∈ [25; 0]%Z →
                fileExists (chunkFileName i "mp4") (disk (worldOf sceneOnly))
                = true
                ∨ ∀ k, goodRun (goodRenderer k i)).
  { intros i _. right. intros k.
    split; [reflexivity|]. split; [reflexivity|]. exists "video". reflexivity. }
  split; [exact H|].
  exact (doPreviewRender_complete 25 "melt" goodRenderer "preview.mlt"
           [25; 0]%Z (worldOf sceneOnly) H).
Defined.

Lemma doPreviewRender_all_cached_witness :
  let w := worldOf twoChunks in
  let w' := doPreviewRender 25 "melt" alwaysCrash "preview.mlt" [25; 0]%Z w in
  (∀ i, i ∈ [25; 0]%Z →
        fileExists (chunkFileName i (m_extension (mgr w))) (disk w) = true)
  ∧ launched w' = launched w
  ∧ files (disk w') = delete "preview.mlt" (files (disk w))
  ∧ undo (disk w') = undo (disk w).
Proof.
  assert (H : ∀ i, i ∈ [25; 0]%Z →
                fileExists (chunkFileName i (m_extension (mgr (worldOf twoChunks))))
                           (disk (worldOf twoChunks)) = true).
  { intros i Hi. repeat (apply elem_of_cons in Hi as [->|Hi]; [reflexivity|]).
    by apply elem_of_nil in Hi. }
  split; [exact H|].
  exact (doPreviewRender_all_cached 25 "melt" alwaysCrash "preview.mlt"
           [25; 0]%Z (worldOf twoChunks) H).
Defined.

Lemma zoneFrames_cover_witness :
  (0 ≤ 30)%Z ∧ (30 ≤ 80)%Z ∧ (0 < 25)%Z
  ∧ zoneFrames 30 80 25 = Some [25; 50; 75]%Z
  ∧ ∃ frames, zoneFrames 30 80 25 = Some frames
      ∧ StronglySorted Z.lt frames
      ∧ (∀ c, c ∈ frames →
              (∃ k, c = k * 25)%Z ∧ (30 - 25 < c ≤ 80)%Z)
      ∧ (∀ f, (30 ≤ f ≤ 80)%Z → ∃ c, c ∈ frames ∧ (c ≤ f < c + 25)%Z).
Proof.
  split_and!; [lia|lia|lia|reflexivity|].
  apply (zoneFrames_cover 30 80 25); lia.
Defined.

Lemma addPreviewRange_spec_witness :
  (25 ≠ 0)%Z
  ∧ ∃ w', addPreviewRange ListRuler listAddChunks (30, 80)%Z 25 true true []
            (worldOf twoChunks) = Some (w', [25; 50; 75]%Z)
      ∧ m_previewTimer (mgr w') = true
      ∧ disk w' = disk (worldOf twoChunks).
Proof.
  split; [lia|].
  destruct (addPreviewRange_spec ListRuler listAddChunks (30, 80)%Z 25 true
              true [] (worldOf twoChunks) ltac:(lia))
    as (frames & w' & Hz & Ha & Hu & Hf & Ht & _).
  assert (frames = [25; 50; 75]%Z) as ->
    by (apply (inj Some); rewrite <- Hz; reflexivity).
  exists w'. split; [exact Ha|]. split; [exact Ht|].
  apply CacheDir_eq; [|exact Hu].
  apply map_eq. intros n. rewrite Hf. by rewrite decide_False by (by intros []).
Defined.



Lemma slotProcessDirtyChunks_range_witness :
  let w := worldOf archiveAtThree in
  let w0 := invalidatePreviews 3 4 [0; 25]%Z w in
  let w' := setMgr (setTimer true (mgr w0)) w0 in
  Sorted Z.le [0; 25]%Z
  ∧ slotProcessDirtyChunks [0; 25]%Z 3 4 true w = Some (w', (0, 25)%Z)
  ∧ (∀ i, i ∈ [0; 25]%Z → (0 ≤ i ≤ 25)%Z)
  ∧ disk w' = disk w0
  ∧ m_previewTimer (mgr w') = true.
Proof.
  cbn zeta.
  assert (Hs : Sorted Z.le [0; 25]%Z).
  { repeat first [apply Sorted_cons | apply Sorted_nil
                 | apply HdRel_cons | apply HdRel_nil]. lia. }
  destruct (slotProcessDirtyChunks_range [0; 25]%Z 3 4 true
              (worldOf archiveAtThree) _ 0 25 Hs eq_refl)
    as (Hr & _ & _ & Hd & _ & Ht).
  split_and!; [exact Hs|reflexivity|exact Hr|exact Hd|exact Ht].
Defined.
